(** * orderedmap: a hash map that remembers key insertion order

    Shallow embedding of [orderedmap.go].  The Go program keeps a built-in
    map from keys to pointers to [element]s and a doubly linked [list] of
    [node]s; both are reached through pointers, and several of the
    properties below depend on which pointers alias.  The embedding therefore
    models the Go heap explicitly: a store of nodes, a store of elements,
    and the two fields of the [OrderedMap] struct.  Every method is a
    computation in a small state-and-panic monad over that store.

    Keys are compared with Go's [==], taken here to be a decidable
    equality on [K]; this is so for every comparable Go type except
    floating-point keys that are NaN, which are outside the model. *)

From stdpp Require Import gmap strings list fin_maps.

(** ** Pointers and zero values *)

(** A heap address.  A Go pointer is either [nil] or an address. *)
Abbreviation loc := nat (only parsing).
Abbreviation ptr := (option nat) (only parsing).
Abbreviation nil := (@None nat) (only parsing).

Definition is_nil (p : ptr) : bool :=
  match p with None => true | Some _ => false end.

(** Go's [==] on two pointers. *)
Definition ptr_eq (p q : ptr) : bool := bool_decide (p = q).

(** Every Go type has a zero value ([var def V]). *)
Class Zero (A : Type) := zero : A.

Global Instance Z_zero : Zero Z := 0%Z.
Global Instance string_zero : Zero string := EmptyString.

Section OrderedMap.
Context {K : Type} {EqK : EqDecision K} {CountK : Countable K} {V : Type}.
Context {ZeroK : Zero K} {ZeroV : Zero V}.

(** ** Data model *)

(** [type node[T any] struct { value T; prev, next *node[T] }] *)
Record node := Node {
  node_value : K;
  node_prev : ptr;
  node_next : ptr
}.

(** [type element[K, V] struct { value V; item *node[K] }] *)
Record element := Element {
  elem_value : V;
  elem_item : ptr
}.

(** [type list[T any] struct { head, tail *node[T] }] *)
Record list_ := List {
  list_head : ptr;
  list_tail : ptr
}.

(** The store: the heap cells of type [node] and [element] with their
    allocation counters, and the fields of the one [OrderedMap] under
    study.  [data] is the built-in map [map[K]*element[K, V]]; [items] is the
    [list] cell that [om.items] points to (allocated once by [New] and never
    reassigned). *)
Record State := MkState {
  nodes : gmap loc node;
  next_node : loc;
  elems : gmap loc element;
  next_elem : loc;
  data : gmap K ptr;
  items : list_
}.

Definition with_nodes (f : gmap loc node → gmap loc node) (s : State) : State :=
  MkState (f (nodes s)) (next_node s) (elems s) (next_elem s) (data s) (items s).
Definition with_elems (f : gmap loc element → gmap loc element) (s : State) : State :=
  MkState (nodes s) (next_node s) (f (elems s)) (next_elem s) (data s) (items s).
Definition with_data (f : gmap K ptr → gmap K ptr) (s : State) : State :=
  MkState (nodes s) (next_node s) (elems s) (next_elem s) (f (data s)) (items s).
Definition with_items (f : list_ → list_) (s : State) : State :=
  MkState (nodes s) (next_node s) (elems s) (next_elem s) (data s) (f (items s)).

(** ** The monad: state passing, [None] is a run-time panic *)

Definition M (A : Type) : Type := State → option (A * State).

Definition ret {A} (a : A) : M A := λ s, Some (a, s).
Definition bind {A B} (m : M A) (f : A → M B) : M B :=
  λ s, match m s with
       | Some (a, s') => f a s'
       | None => None
       end.

Notation "'let!' x := m 'in' f" := (bind m (λ x, f))
  (at level 10, x name, m at level 100, f at level 200).
Notation "'do!' m 'in' f" := (bind m (λ _, f))
  (at level 10, m at level 100, f at level 200).

(** *** Heap primitives *)

(** [&node[K]{...}]: allocate a node cell. *)
Definition new_node (nd : node) : M ptr := λ s,
  Some (Some (next_node s),
        MkState (<[next_node s := nd]> (nodes s)) (S (next_node s))
                (elems s) (next_elem s) (data s) (items s)).

(** [&element[K, V]{...}]: allocate an element cell. *)
Definition new_element (e : element) : M ptr := λ s,
  Some (Some (next_elem s),
        MkState (nodes s) (next_node s)
                (<[next_elem s := e]> (elems s)) (S (next_elem s))
                (data s) (items s)).

(** Dereference of a node pointer; [nil] (or an unallocated address) panics. *)
Definition load_node (p : ptr) : M node := λ s,
  match p with
  | Some l => match nodes s !! l with
              | Some nd => Some (nd, s)
              | None => None
              end
  | None => None
  end.

Definition store_node (p : ptr) (nd : node) : M unit := λ s,
  match p with
  | Some l => Some (tt, with_nodes (insert l nd) s)
  | None => None
  end.

Definition load_elem (p : ptr) : M element := λ s,
  match p with
  | Some l => match elems s !! l with
              | Some e => Some (e, s)
              | None => None
              end
  | None => None
  end.

Definition store_elem (p : ptr) (e : element) : M unit := λ s,
  match p with
  | Some l => Some (tt, with_elems (insert l e) s)
  | None => None
  end.

(** Field reads [p.value], [p.prev], [p.next] and writes [p.prev = q],
    [p.next = q] on a node pointer. *)
Definition get_value (p : ptr) : M K := let! nd := load_node p in ret (node_value nd).
Definition get_prev (p : ptr) : M ptr := let! nd := load_node p in ret (node_prev nd).
Definition get_next (p : ptr) : M ptr := let! nd := load_node p in ret (node_next nd).
Definition upd_prev (q : ptr) (nd : node) : node :=
  Node (node_value nd) q (node_next nd).
Definition upd_next (q : ptr) (nd : node) : node :=
  Node (node_value nd) (node_prev nd) q.
Definition set_prev (p q : ptr) : M unit :=
  let! nd := load_node p in store_node p (upd_prev q nd).
Definition set_next (p q : ptr) : M unit :=
  let! nd := load_node p in store_node p (upd_next q nd).

(** Field reads [e.value], [e.item] and the write [e.value = v] on an
    element pointer. *)
Definition get_elem_value (p : ptr) : M V := let! e := load_elem p in ret (elem_value e).
Definition get_elem_item (p : ptr) : M ptr := let! e := load_elem p in ret (elem_item e).
Definition set_elem_value (p : ptr) (v : V) : M unit :=
  let! e := load_elem p in store_elem p (Element v (elem_item e)).

(** [lst.head], [lst.tail] and their assignments. *)
Definition get_head : M ptr := λ s, Some (list_head (items s), s).
Definition get_tail : M ptr := λ s, Some (list_tail (items s), s).
Definition set_head (p : ptr) : M unit := λ s,
  Some (tt, with_items (λ l, List p (list_tail l)) s).
Definition set_tail (p : ptr) : M unit := λ s,
  Some (tt, with_items (λ l, List (list_head l) p) s).

(** The built-in map: [e, ok := om.data[key]], [om.data[key]] (a missing
    key reads as the zero value of the value type, the nil pointer),
    [om.data[key] = e] and [delete(om.data, key)]. *)
Definition data_lookup (key : K) : M (option ptr) := λ s, Some (data s !! key, s).
Definition data_index (key : K) : M ptr := λ s, Some (default nil (data s !! key), s).
Definition data_insert (key : K) (e : ptr) : M unit := λ s,
  Some (tt, with_data (insert key e) s).
Definition data_delete (key : K) : M unit := λ s,
  Some (tt, with_data (delete key) s).

(** ** The linked list *)

(** [func (lst *list[T]) push(n *node[T])] *)
Definition push (n : ptr) : M unit :=
  let! h := get_head in
  if is_nil h then
    do! set_head n in
    set_tail n
  else
    let! t := get_tail in
    do! set_next t n in
    let! t := get_tail in
    do! set_prev n t in
    set_tail n.

(** [func (lst *list[T]) remove(n *node[T])] *)
Definition remove (n : ptr) : M unit :=
  let! c := get_prev n in
  do! (if negb (is_nil c) then
         let! p := get_prev n in
         let! q := get_next n in
         set_next p q
       else ret tt) in
  let! c := get_next n in
  do! (if negb (is_nil c) then
         let! q := get_next n in
         let! p := get_prev n in
         set_prev q p
       else ret tt) in
  let! h := get_head in
  do! (if ptr_eq n h then
         let! q := get_next n in
         set_head q
       else ret tt) in
  let! t := get_tail in
  if ptr_eq n t then
    let! p := get_prev n in
    set_tail p
  else ret tt.

(** ** The ordered map *)

(** [func New[K comparable, V any]() *OrderedMap[K, V]] *)
Definition New : State :=
  MkState ∅ 0 ∅ 0 ∅ (List nil nil).

(** [func (om *OrderedMap[K, V]) Get(key K) (V, bool)] *)
Definition Get (key : K) : M (V * bool) :=
  let! r := data_lookup key in
  match r with
  | Some elem =>
      let! v := get_elem_value elem in
      ret (v, true)
  | None => ret (zero, false)
  end.

(** [func (om *OrderedMap[K, V]) Set(key K, value V) (V, bool)], named
    [Set_] because [Set] is a sort of Rocq.
    [old] is the pointer stored in the map, so [old.value] is read from
    the same cell that the line before it has written. *)
Definition Set_ (key : K) (value : V) : M (V * bool) :=
  let! r := data_lookup key in
  match r with
  | Some old =>
      let! e := data_index key in
      do! set_elem_value e value in
      let! v := get_elem_value old in
      ret (v, true)
  | None =>
      let! item := new_node (Node key nil nil) in
      do! push item in
      let! e := new_element (Element value item) in
      do! data_insert key e in
      ret (zero, false)
  end.

(** [func (om *OrderedMap[K, V]) Delete(key K) (V, bool)] *)
Definition Delete (key : K) : M (V * bool) :=
  let! r := data_lookup key in
  match r with
  | Some val =>
      let! it := get_elem_item val in
      do! remove it in
      do! data_delete key in
      let! v := get_elem_value val in
      ret (v, true)
  | None => ret (zero, false)
  end.

(** [func (om *OrderedMap[K, V]) Len() int] *)
Definition Len (s : State) : Z := Z.of_nat (size (data s)).

(** [func (om *OrderedMap[K, V]) Iterator() func() (K, V, bool)].
    The returned closure owns one variable, [curr]; the closure is
    modelled by the value of that variable, and a call of the closure by
    [next], which returns the triple and the new [curr].  The closure reads
    the map when it is called, so the store is an argument of every call. *)
Definition Iterator : M ptr := get_head.

Definition next (curr : ptr) : M ((K * V * bool) * ptr) :=
  if is_nil curr then ret ((zero, zero, false), curr)
  else
    let! key := get_value curr in
    let! e := data_index key in
    let! val := get_elem_value e in
    let! curr' := get_next curr in
    ret ((key, val, true), curr').

(** ** Clients of the API *)

(** The two mutating methods, as commands. *)
Inductive op := OpSet (key : K) (value : V) | OpDelete (key : K).

Definition exec (o : op) : M (V * bool) :=
  match o with
  | OpSet key value => Set_ key value
  | OpDelete key => Delete key
  end.

(** A sequence of calls, results dropped; [None] if a call panics. *)
Fixpoint run (ops : list op) (s : State) : option State :=
  match ops with
  | [] => Some s
  | o :: ops =>
      match exec o s with
      | Some (_, s') => run ops s'
      | None => None
      end
  end.

(** The idiomatic loop of the documentation,
    [for k, v, ok := next(); ok; k, v, ok = next() { ... }],
    collecting the pairs it visits.  The map is not touched by the loop
    body.  [fuel] bounds the number of calls of [next]. *)
Fixpoint drain (fuel : nat) (curr : ptr) (s : State) : option (list (K * V)) :=
  match fuel with
  | 0 => None
  | S fuel =>
      match next curr s with
      | Some ((key, val, true), curr', s') =>
          match drain fuel curr' s' with
          | Some kvs => Some ((key, val) :: kvs)
          | None => None
          end
      | Some ((_, _, false), _, _) => Some []
      | None => None
      end
  end.

(** [next := om.Iterator()] followed by the loop. *)
Definition iterate (fuel : nat) (s : State) : option (list (K * V)) :=
  match Iterator s with
  | Some (curr, s') => drain fuel curr s'
  | None => None
  end.

(** [n] successive calls of one iterator's [next]: the triples returned
    and the final value of [curr]. *)
Fixpoint calls (n : nat) (curr : ptr) (s : State)
  : option (list (K * V * bool) * ptr) :=
  match n with
  | 0 => Some ([], curr)
  | S n =>
      match next curr s with
      | Some (r, curr', s') =>
          match calls n curr' s' with
          | Some (rs, c) => Some (r :: rs, c)
          | None => None
          end
      | None => None
      end
  end.

(** The addresses met when following one link field from [p] until [nil]. *)
Fixpoint chain (link : node → ptr) (fuel : nat) (m : gmap loc node) (p : ptr)
  : option (list loc) :=
  match p with
  | None => Some []
  | Some l =>
      match fuel with
      | 0 => None
      | S fuel =>
          match m !! l with
          | Some nd =>
              match chain link fuel m (link nd) with
              | Some ls => Some (l :: ls)
              | None => None
              end
          | None => None
          end
      end
  end.

Definition forward (fuel : nat) (s : State) : option (list loc) :=
  chain node_next fuel (nodes s) (list_head (items s)).
Definition backward (fuel : nat) (s : State) : option (list loc) :=
  chain node_prev fuel (nodes s) (list_tail (items s)).

(** The keys of a sequence of [Set] calls in the order of their first
    occurrence. *)
Fixpoint first_seen (seen : list K) (ks : list K) : list K :=
  match ks with
  | [] => []
  | k :: ks =>
      if decide (k ∈ seen) then first_seen seen ks
      else k :: first_seen (k :: seen) ks
  end.

Definition introduction_order (ks : list K) : list K := first_seen [] ks.

(** A sequence of [Set] calls. *)
Definition sets (kvs : list (K * V)) : list op :=
  (λ kv, OpSet kv.1 kv.2) <$> kvs.

(** The position reference of [key]: the [item] field of the element that
    the index stores under [key]. *)
Definition position_ref (s : State) (key : K) : option loc :=
  match data s !! key with
  | Some (Some p) =>
      match elems s !! p with
      | Some el => elem_item el
      | None => None
      end
  | _ => None
  end.

(** The key held by the node at address [l]. *)
Definition key_at (s : State) (l : loc) : option K :=
  node_value <$> nodes s !! l.

(** The key a command acts on. *)
Definition op_key (o : op) : K :=
  match o with
  | OpSet key _ => key
  | OpDelete key => key
  end.

(** A visited pair after [key] has been given the value [value]. *)
Definition overwrite (key : K) (value : V) (kv : K * V) : K * V :=
  if decide (kv.1 = key) then (key, value) else kv.

(** ** Representation invariant *)

(** One key of the map as it is laid out in the store: the address of its
    node, the address of its element, the key and the stored value. *)
Record entry := Entry {
  en : loc;
  ep : loc;
  ek : K;
  ev : V
}.

Definition prev_at (ns : list loc) (i : nat) : ptr :=
  match i with
  | 0 => None
  | S j => ns !! j
  end.

Definition next_at (ns : list loc) (i : nat) : ptr := ns !! S i.

(** [Inv s ents]: the store [s] holds exactly the entries [ents], in list
    order. *)
Record Inv (s : State) (ents : list entry) : Prop := {
  inv_nodup : NoDup (en <$> ents);
  inv_head : list_head (items s) = (en <$> ents) !! 0;
  inv_tail : list_tail (items s) = last (en <$> ents);
  inv_node : ∀ i e, ents !! i = Some e →
    nodes s !! en e =
      Some (Node (ek e) (prev_at (en <$> ents) i) (next_at (en <$> ents) i));
  inv_elem : ∀ e, e ∈ ents →
    elems s !! ep e = Some (Element (ev e) (Some (en e)));
  inv_data : ∀ e, e ∈ ents → data s !! ek e = Some (Some (ep e));
  inv_dom : ∀ k x, data s !! k = Some x → k ∈ ek <$> ents;
  inv_node_lt : ∀ e, e ∈ ents → en e < next_node s;
  inv_elem_lt : ∀ e, e ∈ ents → ep e < next_elem s
}.

(** The pairs an iteration is expected to visit. *)
Definition pairs (ents : list entry) : list (K * V) :=
  (λ e, (ek e, ev e)) <$> ents.

(** The effect of [remove] on the node store: the neighbours are linked to
    each other. *)
Definition relink (p : ptr) (f : node → node) (m : gmap loc node) : gmap loc node :=
  match p with
  | Some l => alter f l m
  | None => m
  end.

(** ** Proofs *)

(** *** The heap primitives *)

Lemma insert_as_alter {A} (f : A → A) (m : gmap loc A) l x :
  m !! l = Some x → <[l := f x]> m = alter f l m.
Proof.
  intros Hl. apply map_eq. intros j.
  rewrite lookup_insert, lookup_alter.
  destruct (decide (l = j)) as [->|]; [by rewrite Hl | done].
Qed.

Lemma bind_eq {A B} (m : M A) (f : A → M B) s a s' :
  m s = Some (a, s') → bind m f s = f a s'.
Proof. intros Hm. unfold bind. by rewrite Hm. Qed.

Lemma load_node_eq s l nd :
  nodes s !! l = Some nd → load_node (Some l) s = Some (nd, s).
Proof. intros Hl. unfold load_node. by rewrite Hl. Qed.

Lemma get_prev_eq s l nd :
  nodes s !! l = Some nd → get_prev (Some l) s = Some (node_prev nd, s).
Proof. intros Hl. unfold get_prev, bind. by rewrite (load_node_eq _ _ _ Hl). Qed.

Lemma get_next_eq s l nd :
  nodes s !! l = Some nd → get_next (Some l) s = Some (node_next nd, s).
Proof. intros Hl. unfold get_next, bind. by rewrite (load_node_eq _ _ _ Hl). Qed.

Lemma get_value_eq s l nd :
  nodes s !! l = Some nd → get_value (Some l) s = Some (node_value nd, s).
Proof. intros Hl. unfold get_value, bind. by rewrite (load_node_eq _ _ _ Hl). Qed.

Lemma set_next_eq s l nd q :
  nodes s !! l = Some nd →
  set_next (Some l) q s = Some (tt, with_nodes (alter (upd_next q) l) s).
Proof.
  intros Hl. unfold set_next, bind. rewrite (load_node_eq _ _ _ Hl).
  unfold store_node, with_nodes. by rewrite (insert_as_alter _ _ _ _ Hl).
Qed.

Lemma set_prev_eq s l nd q :
  nodes s !! l = Some nd →
  set_prev (Some l) q s = Some (tt, with_nodes (alter (upd_prev q) l) s).
Proof.
  intros Hl. unfold set_prev, bind. rewrite (load_node_eq _ _ _ Hl).
  unfold store_node, with_nodes. by rewrite (insert_as_alter _ _ _ _ Hl).
Qed.

Lemma load_elem_eq s l e :
  elems s !! l = Some e → load_elem (Some l) s = Some (e, s).
Proof. intros Hl. unfold load_elem. by rewrite Hl. Qed.

Lemma get_elem_value_eq s l e :
  elems s !! l = Some e → get_elem_value (Some l) s = Some (elem_value e, s).
Proof. intros Hl. unfold get_elem_value, bind. by rewrite (load_elem_eq _ _ _ Hl). Qed.

Lemma get_elem_item_eq s l e :
  elems s !! l = Some e → get_elem_item (Some l) s = Some (elem_item e, s).
Proof. intros Hl. unfold get_elem_item, bind. by rewrite (load_elem_eq _ _ _ Hl). Qed.

(** *** The linked list *)

Lemma push_empty s n :
  list_head (items s) = None →
  push n s = Some (tt, with_items (λ _, List n n) s).
Proof.
  intros Hh. unfold push, bind, get_head. rewrite Hh. simpl.
  by destruct s.
Qed.

Lemma push_nonempty s h t l ndt ndl :
  list_head (items s) = Some h →
  list_tail (items s) = Some t →
  t ≠ l →
  nodes s !! t = Some ndt →
  nodes s !! l = Some ndl →
  push (Some l) s =
    Some (tt, with_items (λ it, List (list_head it) (Some l))
                (with_nodes (λ m, alter (upd_prev (Some t)) l
                                    (alter (upd_next (Some l)) t m)) s)).
Proof.
  intros Hh Ht Hne Hnt Hnl. unfold push, bind at 1, get_head. rewrite Hh. simpl.
  unfold bind at 1. unfold get_tail at 1. rewrite Ht.
  unfold bind at 1. rewrite (set_next_eq _ _ _ _ Hnt).
  unfold bind at 1. unfold get_tail. simpl. rewrite Ht.
  unfold bind.
  erewrite set_prev_eq; [| simpl; rewrite lookup_alter_ne by done; exact Hnl ].
  by destruct s.
Qed.

Lemma remove_eq s l k p q :
  nodes s !! l = Some (Node k p q) →
  p ≠ Some l → q ≠ Some l →
  (∀ pl, p = Some pl → is_Some (nodes s !! pl)) →
  (∀ ql, q = Some ql → is_Some (nodes s !! ql)) →
  remove (Some l) s =
    Some (tt, with_items
                (λ it, List (if ptr_eq (Some l) (list_head it) then q else list_head it)
                            (if ptr_eq (Some l) (list_tail it) then p else list_tail it))
                (with_nodes (λ m, relink q (upd_prev p) (relink p (upd_next q) m)) s)).
Proof.
  intros Hl Hp Hq Hpa Hqa. unfold remove.
  rewrite (bind_eq _ _ _ _ _ (get_prev_eq _ _ _ Hl)). simpl.
  set (s1 := with_nodes (relink p (upd_next q)) s).
  assert (Hl1 : nodes s1 !! l = Some (Node k p q)).
  { subst s1. destruct p as [pl|]; simpl; [|done].
    rewrite lookup_alter_ne by congruence. done. }
  assert (H1 : (if negb (is_nil p)
                then let! p0 := get_prev (Some l) in
                     let! q0 := get_next (Some l) in set_next p0 q0
                else ret ()) s = Some (tt, s1)).
  { subst s1. destruct p as [pl|]; simpl.
    - destruct (Hpa pl eq_refl) as [ndp Hndp].
      rewrite (bind_eq _ _ _ _ _ (get_prev_eq _ _ _ Hl)). simpl.
      rewrite (bind_eq _ _ _ _ _ (get_next_eq _ _ _ Hl)). simpl.
      by rewrite (set_next_eq _ _ _ _ Hndp).
    - unfold ret. by destruct s. }
  rewrite (bind_eq _ _ _ _ _ H1).
  rewrite (bind_eq _ _ _ _ _ (get_next_eq _ _ _ Hl1)). simpl.
  set (s2 := with_nodes (relink q (upd_prev p)) s1).
  assert (Hl2 : nodes s2 !! l = Some (Node k p q)).
  { subst s2. destruct q as [ql|]; simpl; [|done].
    rewrite lookup_alter_ne by congruence. done. }
  assert (H2 : (if negb (is_nil q)
                then let! q0 := get_next (Some l) in
                     let! p0 := get_prev (Some l) in set_prev q0 p0
                else ret ()) s1 = Some (tt, s2)).
  { subst s2. destruct q as [ql|]; simpl.
    - destruct (Hqa ql eq_refl) as [ndq Hndq].
      rewrite (bind_eq _ _ _ _ _ (get_next_eq _ _ _ Hl1)). simpl.
      rewrite (bind_eq _ _ _ _ _ (get_prev_eq _ _ _ Hl1)). simpl.
      assert (Hq1 : is_Some (nodes s1 !! ql)).
      { subst s1. destruct p as [pl|]; simpl; [|by eauto].
        rewrite lookup_alter. case_decide; [subst; rewrite Hndq|]; by eauto. }
      destruct Hq1 as [ndq1 Hndq1].
      by rewrite (set_prev_eq _ _ _ _ Hndq1).
    - unfold ret. by destruct s1. }
  rewrite (bind_eq _ _ _ _ _ H2).
  change (with_nodes (λ m, relink q (upd_prev p) (relink p (upd_next q) m)) s)
    with s2.
  clearbody s2. clear H1 H2 Hl1. clearbody s1.
  unfold get_head, get_tail, set_head, set_tail,
    get_next, get_prev, load_node, bind, ret.
  destruct (ptr_eq (Some l) (list_head (items s2))) eqn:Hhd;
    destruct (ptr_eq (Some l) (list_tail (items s2))) eqn:Htl;
    simpl; rewrite ?Hl2; simpl; rewrite ?Htl; simpl; rewrite ?Hl2; simpl;
    unfold with_items; simpl; rewrite ?Hhd, ?Htl; try done.
  by destruct s2 as [? ? ? ? ? []].
Qed.

Lemma push_fresh s l k :
  nodes s !! l = Some (Node k nil nil) →
  (list_head (items s) = None ↔ list_tail (items s) = None) →
  (∀ t, list_tail (items s) = Some t → t ≠ l ∧ is_Some (nodes s !! t)) →
  push (Some l) s =
    Some (tt, MkState
                (<[l := Node k (list_tail (items s)) nil]>
                   (relink (list_tail (items s)) (upd_next (Some l)) (nodes s)))
                (next_node s) (elems s) (next_elem s) (data s)
                (List (if is_nil (list_head (items s)) then Some l
                       else list_head (items s)) (Some l))).
Proof.
  intros Hl Hht Ht.
  destruct (list_head (items s)) as [h|] eqn:Hh.
  - destruct (list_tail (items s)) as [t|] eqn:Htl.
    2: { destruct Hht as [_ Hht]. by specialize (Hht eq_refl). }
    destruct (Ht t eq_refl) as [Hne [ndt Hndt]].
    rewrite (push_nonempty s h t l ndt _ Hh Htl Hne Hndt Hl).
    unfold with_items, with_nodes. simpl. rewrite Hh. do 3 f_equal.
    apply map_eq. intros j. rewrite lookup_alter, lookup_insert.
    destruct (decide (l = j)) as [->|]; [|done].
    rewrite lookup_alter_ne by done. by rewrite Hl.
  - destruct Hht as [Hht _]. rewrite (Hht eq_refl).
    rewrite (push_empty s _ Hh). unfold with_items. simpl.
    do 3 f_equal. rewrite insert_id; done.
Qed.

(** *** Neighbours by position *)

Lemma prev_at_app_l (ns ms : list nat) i :
  i ≤ length ns → prev_at (ns ++ ms) i = prev_at ns i.
Proof.
  destruct i as [|j]; simpl; [done|]. intros Hj. apply lookup_app_l. lia.
Qed.

Lemma next_at_app_l (ns ms : list nat) i :
  S i < length ns → next_at (ns ++ ms) i = next_at ns i.
Proof. intros Hi. unfold next_at. by apply lookup_app_l. Qed.

Lemma prev_at_length (ns : list nat) : prev_at ns (length ns) = last ns.
Proof. rewrite last_lookup. by destruct ns. Qed.

Lemma last_lookup_Some (ns : list nat) i x :
  ns !! i = Some x → S i = length ns → last ns = Some x.
Proof. intros Hi Hlen. rewrite last_lookup, <- Hlen. done. Qed.

Lemma last_lookup_inv (ns : list nat) i x :
  NoDup ns → ns !! i = Some x → last ns = Some x → S i = length ns.
Proof.
  intros Hnd Hi Hl. rewrite last_lookup in Hl.
  pose proof (lookup_lt_Some _ _ _ Hi).
  pose proof (NoDup_lookup _ _ _ _ Hnd Hi Hl). lia.
Qed.

Lemma prev_at_delete (ns : list nat) i j :
  prev_at (delete i ns) j =
    if decide (j ≤ i) then prev_at ns j else prev_at ns (S j).
Proof.
  destruct j as [|a]; simpl.
  - first [done | by case_decide].
  - case_decide.
    + apply list_lookup_delete_lt. lia.
    + apply list_lookup_delete_ge. lia.
Qed.

Lemma next_at_delete (ns : list nat) i j :
  next_at (delete i ns) j =
    if decide (S j < i) then next_at ns j else next_at ns (S j).
Proof.
  unfold next_at. case_decide.
  - by apply list_lookup_delete_lt.
  - apply list_lookup_delete_ge. lia.
Qed.

Lemma last_delete (ns : list nat) i :
  i < length ns →
  last (delete i ns) =
    if decide (S i = length ns) then prev_at ns i else last ns.
Proof.
  intros Hi. rewrite !last_lookup.
  rewrite length_delete by (by apply lookup_lt_is_Some_2).
  case_decide as Hl.
  - destruct i as [|a]; simpl.
    + rewrite list_lookup_delete_ge by lia. apply lookup_ge_None_2. lia.
    + rewrite <- Hl. simpl. apply list_lookup_delete_lt. lia.
  - rewrite list_lookup_delete_ge by lia. f_equal. lia.
Qed.

Lemma elem_of_delete_lookup {A} (l : list A) i x :
  x ∈ delete i l ↔ ∃ j, j ≠ i ∧ l !! j = Some x.
Proof.
  split.
  - intros [j Hj]%list_elem_of_lookup_1. rewrite list_lookup_delete in Hj.
    eexists. split; [|exact Hj]. case_decide; lia.
  - intros (j & Hne & Hj). apply list_elem_of_lookup.
    destruct (decide (j < i)).
    + exists j. by rewrite list_lookup_delete_lt.
    + exists (pred j). rewrite list_lookup_delete_ge by lia.
      replace (S (pred j)) with j by lia. done.
Qed.

Lemma relink_lookup (p : option nat) f (m : gmap nat node) l :
  relink p f m !! l = if decide (p = Some l) then f <$> m !! l else m !! l.
Proof.
  destruct p as [a|]; simpl.
  - rewrite lookup_alter. repeat case_decide; congruence.
  - first [done | by case_decide].
Qed.

(** *** Consequences of the invariant *)

Lemma lookup_fmap_en (ents : list entry) i e :
  ents !! i = Some e → (en <$> ents) !! i = Some (en e).
Proof. intros Hi. by rewrite list_lookup_fmap, Hi. Qed.

Lemma inv_en_inj s ents i j e e' :
  Inv s ents → ents !! i = Some e → ents !! j = Some e' → en e = en e' → i = j.
Proof.
  intros HI Hi Hj Heq.
  eapply NoDup_lookup; [apply (inv_nodup _ _ HI) | |].
  - by apply lookup_fmap_en.
  - rewrite Heq. by apply lookup_fmap_en.
Qed.

Lemma inv_ep_inj s ents i j e e' :
  Inv s ents → ents !! i = Some e → ents !! j = Some e' → ep e = ep e' → i = j.
Proof.
  intros HI Hi Hj Heq.
  pose proof (inv_elem _ _ HI e (list_elem_of_lookup_2 _ _ _ Hi)) as H1.
  pose proof (inv_elem _ _ HI e' (list_elem_of_lookup_2 _ _ _ Hj)) as H2.
  rewrite Heq, H2 in H1. eapply inv_en_inj; eauto. congruence.
Qed.

Lemma inv_ek_inj s ents i j e e' :
  Inv s ents → ents !! i = Some e → ents !! j = Some e' → ek e = ek e' → i = j.
Proof.
  intros HI Hi Hj Heq.
  pose proof (inv_data _ _ HI e (list_elem_of_lookup_2 _ _ _ Hi)) as H1.
  pose proof (inv_data _ _ HI e' (list_elem_of_lookup_2 _ _ _ Hj)) as H2.
  rewrite Heq, H2 in H1. eapply inv_ep_inj; eauto. congruence.
Qed.

Lemma inv_present s ents k x :
  Inv s ents → data s !! k = Some x →
  ∃ i e, ents !! i = Some e ∧ ek e = k ∧ x = Some (ep e).
Proof.
  intros HI Hk.
  destruct (list_elem_of_fmap_1 _ _ _ (inv_dom _ _ HI k x Hk)) as (e & -> & He).
  destruct (list_elem_of_lookup_1 _ _ He) as [i Hi].
  exists i, e. split_and!; [done..|].
  rewrite (inv_data _ _ HI e He) in Hk. congruence.
Qed.

Lemma inv_absent s ents k e :
  Inv s ents → data s !! k = None → e ∈ ents → ek e ≠ k.
Proof.
  intros HI Hk He <-. rewrite (inv_data _ _ HI e He) in Hk. done.
Qed.

Lemma inv_empty_head s ents :
  Inv s ents → (list_head (items s) = None ↔ list_tail (items s) = None).
Proof.
  intros HI. rewrite (inv_head _ _ HI), (inv_tail _ _ HI).
  rewrite last_None. destruct ents; simpl; split; done.
Qed.

(** *** The invariant is established by [New] and kept by every method *)

Lemma New_inv : Inv New [].
Proof.
  split; simpl; try done.
  - constructor.
  - intros e He. by apply elem_of_nil in He.
  - intros e He. by apply elem_of_nil in He.
  - intros e He. by apply elem_of_nil in He.
  - intros e He. by apply elem_of_nil in He.
Qed.

Lemma Set_fresh_inv s ents key value :
  Inv s ents → data s !! key = None →
  ∃ s', Set_ key value s = Some ((zero, false), s')
        ∧ Inv s' (ents ++ [Entry (next_node s) (next_elem s) key value])
        ∧ data s' = <[key := Some (next_elem s)]> (data s).
Proof.
  intros HI Hk. unfold Set_.
  unfold bind at 1, data_lookup at 1. rewrite Hk.
  unfold bind at 1, new_node at 1.
  set (s0 := MkState (<[next_node s := Node key nil nil]> (nodes s))
                     (S (next_node s)) (elems s) (next_elem s) (data s) (items s)).
  erewrite (bind_eq (push _) _ s0); cycle 1.
  { apply (push_fresh s0 (next_node s) key).
  { simpl. apply lookup_insert_eq. }
  { simpl. by apply inv_empty_head with ents. }
  { simpl. intros t Ht. rewrite (inv_tail _ _ HI), fmap_last in Ht.
    destruct (last ents) as [e|] eqn:Hlast; [|done]. simpl in Ht.
    injection Ht as <-. apply last_Some_elem_of in Hlast.
    pose proof (inv_node_lt _ _ HI e Hlast) as Hlt.
    split; [lia|]. rewrite lookup_insert_ne by lia.
    destruct (list_elem_of_lookup_1 _ _ Hlast) as [i Hi].
    rewrite (inv_node _ _ HI i e Hi). by eauto. } }
  simpl. unfold new_element, bind, data_insert, with_data, ret. simpl.
  eexists. split; [reflexivity|]. split; [|done].
  clear s0.
  set (e0 := Entry (next_node s) (next_elem s) key value).
  assert (Hfresh : ∀ e, e ∈ ents → en e ≠ next_node s).
  { intros e He. pose proof (inv_node_lt _ _ HI e He). lia. }
  split; simpl.
  - rewrite fmap_app. apply NoDup_app. split_and!.
    + apply (inv_nodup _ _ HI).
    + intros x Hx Hx'. apply list_elem_of_fmap_1 in Hx as (e & -> & He).
      apply list_elem_of_singleton in Hx'. by apply (Hfresh e).
    + apply NoDup_singleton.
  - rewrite (inv_head _ _ HI). by destruct ents.
  - by rewrite fmap_last, last_snoc.
  - intros i e Hi. rewrite fmap_app. simpl.
    apply lookup_snoc_Some in Hi as [[Hlt Hi]|[-> <-]].
    + pose proof (Hfresh e (list_elem_of_lookup_2 _ _ _ Hi)) as Hne.
      rewrite lookup_insert_ne by done.
      pose proof (inv_node _ _ HI i e Hi) as Hnd.
      pose proof (lookup_fmap_en _ _ _ Hi) as Hni.
      rewrite prev_at_app_l by (rewrite length_fmap; lia).
      rewrite (inv_tail _ _ HI).
      destruct (decide (S i = length ents)) as [Hlast|Hnl].
      * rewrite (last_lookup_Some _ i (en e)); [|done|by rewrite length_fmap].
        simpl. rewrite lookup_alter_eq, lookup_insert_ne by done.
        rewrite Hnd. simpl. unfold upd_next. simpl. do 2 f_equal.
        unfold next_at. rewrite Hlast, <- (length_fmap en).
        by rewrite list_lookup_middle.
      * rewrite next_at_app_l by (rewrite length_fmap; lia).
        destruct (last (en <$> ents)) as [t|] eqn:Ht; simpl.
        -- rewrite lookup_alter_ne, lookup_insert_ne; [done..|].
           intros ->. apply Hnl.
           rewrite <- (length_fmap en).
           eapply last_lookup_inv; [apply (inv_nodup _ _ HI)|done..].
        -- by rewrite lookup_insert_ne.
    + rewrite lookup_insert_eq. simpl. do 2 f_equal.
      * rewrite prev_at_app_l by (by rewrite length_fmap).
        rewrite <- (length_fmap en), prev_at_length. apply (inv_tail _ _ HI).
      * unfold next_at. symmetry. apply lookup_ge_None_2.
        rewrite length_app, length_fmap. simpl. lia.
  - intros e [He| ->%list_elem_of_singleton]%elem_of_app.
    + pose proof (inv_elem_lt _ _ HI e He).
      rewrite lookup_insert_ne by lia. by apply (inv_elem _ _ HI).
    + simpl. by rewrite lookup_insert_eq.
  - intros e [He| ->%list_elem_of_singleton]%elem_of_app.
    + rewrite lookup_insert_ne; [by apply (inv_data _ _ HI)|].
      intros Heq. by apply (inv_absent _ _ _ e HI Hk).
    + simpl. by rewrite lookup_insert_eq.
  - intros k x. rewrite lookup_insert. rewrite fmap_app. simpl.
    case_decide as Hkk; intros Hx.
    + subst. apply elem_of_app. right. by apply list_elem_of_singleton.
    + apply elem_of_app. left. by apply (inv_dom _ _ HI k x).
  - intros e [He| ->%list_elem_of_singleton]%elem_of_app; simpl; [|lia].
    pose proof (inv_node_lt _ _ HI e He). lia.
  - intros e [He| ->%list_elem_of_singleton]%elem_of_app; simpl; [|lia].
    pose proof (inv_elem_lt _ _ HI e He). lia.
Qed.


(** [Set] on a present key, in any store: the element cell the map points
    to gets the new value and keeps its [item]; nothing else changes.  The
    value returned is read back from that cell after the write. *)
Lemma Set_present_eq s key value p el :
  data s !! key = Some (Some p) → elems s !! p = Some el →
  Set_ key value s =
    Some ((value, true),
          with_elems (insert p (Element value (elem_item el))) s).
Proof.
  intros Hk Hp. unfold Set_.
  unfold bind at 1, data_lookup at 1. rewrite Hk.
  unfold bind at 1, data_index at 1. rewrite Hk. simpl.
  unfold set_elem_value.
  unfold bind at 1. rewrite (bind_eq _ _ _ _ _ (load_elem_eq _ _ _ Hp)).
  unfold store_elem.
  erewrite bind_eq; [reflexivity|].
  apply (get_elem_value_eq _ _ (Element value (elem_item el))).
  simpl. apply lookup_insert_eq.
Qed.

Lemma Set_present_inv s ents i e value :
  Inv s ents → ents !! i = Some e →
  ∃ s', Set_ (ek e) value s = Some ((value, true), s')
        ∧ Inv s' (<[i := Entry (en e) (ep e) (ek e) value]> ents)
        ∧ nodes s' = nodes s ∧ data s' = data s ∧ items s' = items s.
Proof.
  intros HI Hi.
  pose proof (list_elem_of_lookup_2 _ _ _ Hi) as He.
  rewrite (Set_present_eq s (ek e) value (ep e) _
             (inv_data _ _ HI e He) (inv_elem _ _ HI e He)).
  eexists. split; [reflexivity|]. split; [|split_and!; reflexivity].
  unfold with_elems. simpl.
  set (e1 := Entry (en e) (ep e) (ek e) value).
  assert (Hen : en <$> <[i := e1]> ents = en <$> ents).
  { rewrite list_fmap_insert. apply list_insert_id.
    exact (lookup_fmap_en _ _ _ Hi). }
  assert (Hek : ek <$> <[i := e1]> ents = ek <$> ents).
  { rewrite list_fmap_insert. apply list_insert_id.
    by rewrite list_lookup_fmap, Hi. }
  assert (Hcase : ∀ e', e' ∈ <[i := e1]> ents →
            e' = e1 ∨ (e' ∈ ents ∧ ep e' ≠ ep e)).
  { intros e' [j Hj]%list_elem_of_lookup_1.
    apply list_lookup_insert_Some in Hj as [(-> & <- & _)|[Hne Hj]]; [by left|].
    right. split; [by eapply list_elem_of_lookup_2|].
    intros Heq. apply Hne. by eapply (inv_ep_inj s ents i j e e'). }
  split; simpl.
  - rewrite Hen. apply (inv_nodup _ _ HI).
  - rewrite Hen. apply (inv_head _ _ HI).
  - rewrite Hen. apply (inv_tail _ _ HI).
  - intros j e' Hj. rewrite Hen.
    apply list_lookup_insert_Some in Hj as [(-> & <- & _)|[Hne Hj]].
    + apply (inv_node _ _ HI j e Hi).
    + apply (inv_node _ _ HI j e' Hj).
  - intros e' [->|[He' Hne]]%Hcase.
    + simpl. by rewrite lookup_insert_eq.
    + rewrite lookup_insert_ne by done. by apply (inv_elem _ _ HI).
  - intros e' [->|[He' Hne]]%Hcase.
    + simpl. by apply (inv_data _ _ HI e).
    + by apply (inv_data _ _ HI).
  - rewrite Hek. apply (inv_dom _ _ HI).
  - intros e' [->|[He' Hne]]%Hcase.
    + simpl. by apply (inv_node_lt _ _ HI e).
    + by apply (inv_node_lt _ _ HI).
  - intros e' [->|[He' Hne]]%Hcase.
    + simpl. by apply (inv_elem_lt _ _ HI e).
    + by apply (inv_elem_lt _ _ HI).
Qed.

Lemma lookup_en_inv (ents : list entry) j l :
  (en <$> ents) !! j = Some l → ∃ e, ents !! j = Some e ∧ en e = l.
Proof. intros (e & -> & He)%list_lookup_fmap_Some_1. eauto. Qed.

Lemma inv_remove s ents i e :
  Inv s ents → ents !! i = Some e →
  remove (Some (en e)) s =
    Some (tt, MkState
                (relink (next_at (en <$> ents) i) (upd_prev (prev_at (en <$> ents) i))
                   (relink (prev_at (en <$> ents) i)
                      (upd_next (next_at (en <$> ents) i)) (nodes s)))
                (next_node s) (elems s) (next_elem s) (data s)
                (List (if decide (i = 0) then next_at (en <$> ents) i
                       else list_head (items s))
                      (if decide (S i = length ents) then prev_at (en <$> ents) i
                       else list_tail (items s)))).
Proof.
  intros HI Hi.
  pose proof (inv_nodup _ _ HI) as Hnd.
  pose proof (lookup_fmap_en _ _ _ Hi) as Hni.
  rewrite (remove_eq s (en e) (ek e) _ _ (inv_node _ _ HI i e Hi)).
  - unfold with_items, with_nodes. simpl. do 3 f_equal. f_equal.
    + unfold ptr_eq. rewrite (inv_head _ _ HI).
      case_bool_decide as Hh; case_decide as Hz; try done.
      * symmetry in Hh. pose proof (NoDup_lookup _ _ _ _ Hnd Hni Hh). done.
      * subst i. by rewrite Hni in Hh.
    + unfold ptr_eq. rewrite (inv_tail _ _ HI).
      case_bool_decide as Hh; case_decide as Hz; try done.
      * symmetry in Hh. rewrite <- (length_fmap en) in Hz.
        by pose proof (last_lookup_inv _ _ _ Hnd Hni Hh).
      * rewrite (last_lookup_Some _ i (en e)) in Hh; [done..|].
        by rewrite length_fmap.
  - destruct i as [|j]; simpl; [done|]. intros Hj.
    pose proof (NoDup_lookup _ _ _ _ Hnd Hni Hj). lia.
  - unfold next_at. intros Hj.
    pose proof (NoDup_lookup _ _ _ _ Hnd Hni Hj). lia.
  - intros pl Hp. destruct i as [|j]; simpl in Hp; [done|].
    apply lookup_en_inv in Hp as (e' & He' & <-).
    rewrite (inv_node _ _ HI j e' He'). by eauto.
  - intros ql Hq. unfold next_at in Hq.
    apply lookup_en_inv in Hq as (e' & He' & <-).
    rewrite (inv_node _ _ HI (S i) e' He'). by eauto.
Qed.

Lemma Delete_present_inv s ents i e :
  Inv s ents → ents !! i = Some e →
  ∃ s', Delete (ek e) s = Some ((ev e, true), s')
        ∧ Inv s' (delete i ents)
        ∧ data s' = delete (ek e) (data s).
Proof.
  intros HI Hi.
  pose proof (list_elem_of_lookup_2 _ _ _ Hi) as He.
  pose proof (inv_nodup _ _ HI) as Hnd.
  pose proof (lookup_fmap_en _ _ _ Hi) as Hni.
  pose proof (lookup_lt_Some _ _ _ Hi) as Hlen.
  unfold Delete.
  unfold bind at 1, data_lookup at 1. rewrite (inv_data _ _ HI e He).
  rewrite (bind_eq _ _ _ _ _ (get_elem_item_eq _ _ _ (inv_elem _ _ HI e He))).
  simpl. rewrite (bind_eq _ _ _ _ _ (inv_remove _ _ _ _ HI Hi)).
  unfold bind at 1, data_delete at 1, with_data. simpl.
  erewrite bind_eq; cycle 1.
  { apply get_elem_value_eq. simpl. apply (inv_elem _ _ HI e He). }
  simpl. eexists. split; [reflexivity|]. split; [|reflexivity].
  split; simpl.
  - rewrite list_fmap_delete.
    exact (sublist_NoDup _ _ Hnd (sublist_delete _ _)).
  - rewrite list_fmap_delete, list_lookup_delete.
    rewrite (inv_head _ _ HI). unfold next_at.
    repeat case_decide; subst; try done; lia.
  - rewrite list_fmap_delete, last_delete by (by rewrite length_fmap).
    rewrite (inv_tail _ _ HI), length_fmap. done.
  - intros j e' Hj. rewrite list_fmap_delete.
    rewrite prev_at_delete, next_at_delete.
    rewrite list_lookup_delete in Hj.
    set (j' := if decide (j < i) then j else S j) in Hj.
    assert (Hj' : j' = j ∧ j < i ∨ j' = S j ∧ i ≤ j)
      by (subst j'; case_decide; lia).
    clearbody j'.
    pose proof (lookup_fmap_en _ _ _ Hj) as Hnj.
    rewrite !relink_lookup, (inv_node _ _ HI j' e' Hj). simpl.
    destruct (decide (next_at (en <$> ents) i = Some (en e'))) as [Hq|Hq].
    + pose proof (NoDup_lookup _ _ _ _ Hnd Hnj Hq) as Hjq.
      destruct (decide (prev_at (en <$> ents) i = Some (en e'))) as [Hp|Hp].
      { destruct i as [|a]; [done|]. simpl in Hp.
        pose proof (NoDup_lookup _ _ _ _ Hnd Hnj Hp). lia. }
      assert (j = i) as -> by lia. subst j'.
      simpl. unfold upd_prev. simpl.
      rewrite decide_True, decide_False by lia. done.
    + destruct (decide (prev_at (en <$> ents) i = Some (en e'))) as [Hp|Hp].
      * destruct i as [|a]; [done|]. simpl in Hp.
        pose proof (NoDup_lookup _ _ _ _ Hnd Hnj Hp) as Hjp.
        assert (j = a) as -> by lia. subst j'.
        simpl. unfold upd_next. simpl.
        rewrite decide_True, decide_False by lia. done.
      * simpl. destruct Hj' as [[-> Hlt]|[-> Hge]].
        -- rewrite decide_True by lia.
           case_decide as Hs; [done|]. exfalso. apply Hp.
           assert (i = S j) as -> by lia. done.
        -- rewrite (decide_False (P := S j < i)) by lia.
           case_decide as Hs; [|done]. exfalso. apply Hq.
           assert (j = i) as -> by lia. done.
  - intros e' He'%list_elem_of_delete_inv. by apply (inv_elem _ _ HI).
  - intros e' (j & Hne & Hj)%elem_of_delete_lookup.
    rewrite lookup_delete_ne.
    + apply (inv_data _ _ HI). by eapply list_elem_of_lookup_2.
    + intros Heq. apply Hne. symmetry. by eapply (inv_ek_inj s ents i j e e').
  - intros k x. rewrite lookup_delete. case_decide as Hk; [done|].
    intros Hx. destruct (inv_present _ _ _ _ HI Hx) as (j & e' & Hj & <- & _).
    apply list_elem_of_fmap_2. apply elem_of_delete_lookup.
    exists j. split; [|done]. intros ->. rewrite Hi in Hj. congruence.
  - intros e' He'%list_elem_of_delete_inv. by apply (inv_node_lt _ _ HI).
  - intros e' He'%list_elem_of_delete_inv. by apply (inv_elem_lt _ _ HI).
Qed.

(** *** Absent keys, in any store *)

Lemma Get_absent_eq s key :
  data s !! key = None → Get key s = Some ((zero, false), s).
Proof.
  intros Hk. unfold Get, bind, data_lookup. by rewrite Hk.
Qed.

Lemma Delete_absent_eq s key :
  data s !! key = None → Delete key s = Some ((zero, false), s).
Proof.
  intros Hk. unfold Delete, bind, data_lookup. by rewrite Hk.
Qed.

Lemma Delete_then_absent s key r s' :
  Delete key s = Some (r, s') → data s' !! key = None.
Proof.
  unfold Delete. unfold bind at 1, data_lookup at 1.
  destruct (data s !! key) as [val|] eqn:Hk.
  - unfold bind at 1. destruct (get_elem_item val s) as [[it s1]|] eqn:H1; [|done].
    assert (data s1 = data s) as Hd1.
    { unfold get_elem_item, bind, load_elem, ret in H1.
      destruct val as [l|]; [|done]. destruct (elems s !! l); [|done].
      by injection H1 as _ <-. }
    unfold bind at 1. destruct (remove it s1) as [[[] s2]|] eqn:H2; [|done].
    unfold bind at 1, data_delete at 1.
    unfold get_elem_value, bind, load_elem, ret.
    destruct val as [l|]; [|done]. simpl.
    destruct (elems s2 !! l); [|done].
    intros [= _ <-]. simpl. apply lookup_delete_eq.
  - unfold ret. by intros [= _ <-].
Qed.

Lemma Get_present_eq s key p el :
  data s !! key = Some (Some p) → elems s !! p = Some el →
  Get key s = Some ((elem_value el, true), s).
Proof.
  intros Hk Hp. unfold Get. unfold bind at 1, data_lookup at 1. rewrite Hk.
  by rewrite (bind_eq _ _ _ _ _ (get_elem_value_eq _ _ _ Hp)).
Qed.

(** *** Every reachable store satisfies the invariant *)

Lemma exec_inv o s ents :
  Inv s ents →
  ∃ r s' ents', exec o s = Some (r, s') ∧ Inv s' ents'
                ∧ length ents' ≤ S (length ents).
Proof.
  intros HI. destruct o as [key value|key]; simpl.
  - destruct (data s !! key) as [x|] eqn:Hk.
    + destruct (inv_present _ _ _ _ HI Hk) as (i & e & Hi & <- & _).
      destruct (Set_present_inv s ents i e value HI Hi) as (s' & Hs & HI' & _).
      eexists _, s', _. split_and!; [done..|]. rewrite length_insert. lia.
    + destruct (Set_fresh_inv s ents key value HI Hk) as (s' & Hs & HI' & _).
      eexists _, s', _. split_and!; [done..|]. rewrite length_app. simpl. lia.
  - destruct (data s !! key) as [x|] eqn:Hk.
    + destruct (inv_present _ _ _ _ HI Hk) as (i & e & Hi & <- & _).
      destruct (Delete_present_inv s ents i e HI Hi) as (s' & Hs & HI' & _).
      eexists _, s', _. split_and!; [done..|].
      rewrite length_delete by eauto. lia.
    + eexists _, s, ents. split_and!; [by apply Delete_absent_eq|done|lia].
Qed.

Lemma run_inv ops s ents :
  Inv s ents →
  ∃ s' ents', run ops s = Some s' ∧ Inv s' ents'
              ∧ length ents' ≤ length ents + length ops.
Proof.
  revert s ents. induction ops as [|o ops IH]; intros s ents HI; simpl.
  - exists s, ents. split_and!; [done..|lia].
  - destruct (exec_inv o s ents HI) as (r & s1 & ents1 & -> & HI1 & Hlen1).
    destruct (IH s1 ents1 HI1) as (s' & ents' & Hrun & HI' & Hlen').
    exists s', ents'. split_and!; [done..|lia].
Qed.

Lemma reachable_inv ops s :
  run ops New = Some s → ∃ ents, Inv s ents ∧ length ents ≤ length ops.
Proof.
  intros Hrun.
  destruct (run_inv ops New [] New_inv) as (s' & ents & Hrun' & HI & Hlen).
  rewrite Hrun in Hrun'. injection Hrun' as <-. by exists ents.
Qed.

Lemma inv_keys_NoDup s ents : Inv s ents → NoDup (ek <$> ents).
Proof.
  intros HI. apply NoDup_alt. intros i j k Hi Hj.
  apply list_lookup_fmap_Some_1 in Hi as (e & -> & Hi).
  apply list_lookup_fmap_Some_1 in Hj as (e' & Heq & Hj).
  by eapply (inv_ek_inj s ents i j e e').
Qed.

(** The size of the map is the number of entries. *)
Lemma inv_size s ents : Inv s ents → size (data s) = length ents.
Proof.
  intros HI.
  pose proof (inv_keys_NoDup s ents HI) as Hks.
  assert (Hdom : dom (data s) = list_to_set (ek <$> ents)).
  { apply set_eq. intros k. rewrite elem_of_dom, elem_of_list_to_set. split.
    - intros [x Hx]. by apply (inv_dom _ _ HI k x).
    - intros (e & -> & He)%list_elem_of_fmap_1.
      rewrite (inv_data _ _ HI e He). by eauto. }
  rewrite <- size_dom, Hdom, size_list_to_set by done.
  by rewrite length_fmap.
Qed.

(** *** Iteration *)

Lemma next_nil s : next None s = Some ((zero, zero, false), None, s).
Proof. done. Qed.

Lemma next_false s curr key val curr' s' :
  next curr s = Some ((key, val, false), curr', s') →
  curr = None ∧ key = zero ∧ val = zero ∧ curr' = None ∧ s' = s.
Proof.
  destruct curr as [l|]; simpl.
  - unfold next. simpl. unfold get_value, data_index, get_elem_value, get_next,
      bind, ret, load_node, load_elem.
    destruct (nodes s !! l) as [nd|] eqn:Hl; [|done].
    destruct (default None (data s !! node_value nd)) as [p|]; [|done].
    destruct (elems s !! p); [|done]. rewrite Hl. done.
  - rewrite next_nil. by intros [= <- <- <- <-].
Qed.

Lemma inv_next s ents i e :
  Inv s ents → ents !! i = Some e →
  next (Some (en e)) s =
    Some ((ek e, ev e, true), next_at (en <$> ents) i, s).
Proof.
  intros HI Hi.
  pose proof (list_elem_of_lookup_2 _ _ _ Hi) as He.
  unfold next. simpl.
  rewrite (bind_eq _ _ _ _ _ (get_value_eq _ _ _ (inv_node _ _ HI i e Hi))).
  simpl. unfold bind at 1, data_index at 1. rewrite (inv_data _ _ HI e He).
  simpl.
  rewrite (bind_eq _ _ _ _ _ (get_elem_value_eq _ _ _ (inv_elem _ _ HI e He))).
  rewrite (bind_eq _ _ _ _ _ (get_next_eq _ _ _ (inv_node _ _ HI i e Hi))).
  done.
Qed.

Lemma inv_drain s ents :
  Inv s ents →
  ∀ fuel i, length ents - i < fuel →
    drain fuel ((en <$> ents) !! i) s = Some (pairs (drop i ents)).
Proof.
  intros HI. induction fuel as [|fuel IH]; intros i Hfuel; [lia|].
  simpl. rewrite list_lookup_fmap.
  destruct (ents !! i) as [e|] eqn:Hi; simpl.
  - rewrite (inv_next s ents i e HI Hi). unfold next_at.
    pose proof (lookup_lt_Some _ _ _ Hi).
    rewrite IH by lia. by rewrite (drop_S _ _ _ Hi).
  - by rewrite drop_ge by (by apply lookup_ge_None_1).
Qed.

Lemma inv_iterate s ents fuel :
  Inv s ents → length ents < fuel → iterate fuel s = Some (pairs ents).
Proof.
  intros HI Hfuel. unfold iterate, Iterator, get_head.
  rewrite (inv_head _ _ HI), (inv_drain s ents HI fuel 0) by lia.
  by rewrite drop_0.
Qed.

Lemma calls_exhausted s n :
  calls n None s = Some (replicate n (zero, zero, false), None).
Proof.
  induction n as [|n IH]; simpl; [done|]. by rewrite IH.
Qed.

(** *** The two chains of the list *)

Lemma inv_forward_from s ents :
  Inv s ents →
  ∀ fuel i, length ents - i ≤ fuel →
    chain node_next fuel (nodes s) ((en <$> ents) !! i) = Some (drop i (en <$> ents)).
Proof.
  intros HI. induction fuel as [|fuel IH]; intros i Hfuel.
  - simpl. rewrite lookup_ge_None_2 by (rewrite length_fmap; lia).
    by rewrite drop_ge by (rewrite length_fmap; lia).
  - destruct ((en <$> ents) !! i) as [l|] eqn:Hi.
    + destruct (lookup_en_inv _ _ _ Hi) as (e & He & <-).
      pose proof (lookup_lt_Some _ _ _ He).
      simpl. rewrite (inv_node _ _ HI i e He). simpl.
      unfold next_at. rewrite IH by lia. by rewrite (drop_S _ _ _ Hi).
    + simpl. by rewrite drop_ge by (by apply lookup_ge_None_1).
Qed.

Lemma inv_backward_from s ents :
  Inv s ents →
  ∀ i fuel, i ≤ length ents → i ≤ fuel →
    chain node_prev fuel (nodes s) (prev_at (en <$> ents) i)
      = Some (reverse (take i (en <$> ents))).
Proof.
  intros HI. induction i as [|j IH]; intros fuel Hi Hfuel.
  - simpl. by destruct fuel.
  - destruct fuel as [|fuel]; [lia|]. simpl.
    destruct (lookup_lt_is_Some_2 ents j) as [e He]; [lia|].
    pose proof (lookup_fmap_en _ _ _ He) as Hn. rewrite Hn.
    rewrite (inv_node _ _ HI j e He). simpl.
    rewrite IH by lia. by rewrite (take_S_r _ _ _ Hn), reverse_snoc.
Qed.

Lemma inv_forward s ents fuel :
  Inv s ents → length ents ≤ fuel → forward fuel s = Some (en <$> ents).
Proof.
  intros HI Hfuel. unfold forward.
  rewrite (inv_head _ _ HI), (inv_forward_from s ents HI fuel 0) by lia.
  by rewrite drop_0.
Qed.

Lemma inv_backward s ents fuel :
  Inv s ents → length ents ≤ fuel →
  backward fuel s = Some (reverse (en <$> ents)).
Proof.
  intros HI Hfuel. unfold backward.
  rewrite (inv_tail _ _ HI), <- prev_at_length.
  rewrite length_fmap, (inv_backward_from s ents HI) by lia.
  by rewrite take_ge by (by rewrite length_fmap).
Qed.

(** *** Order of first occurrence *)

Lemma first_seen_ext (seen seen' ks : list K) :
  (∀ k, k ∈ seen ↔ k ∈ seen') → first_seen seen ks = first_seen seen' ks.
Proof.
  revert seen seen'. induction ks as [|k ks IH]; intros seen seen' Heq; simpl.
  - done.
  - destruct (decide (k ∈ seen)) as [Hin|Hin].
    + rewrite decide_True by (by apply Heq). by apply IH.
    + rewrite decide_False by (by rewrite <- Heq). f_equal. apply IH.
      intros k'. rewrite !elem_of_cons. by rewrite Heq.
Qed.

Lemma first_seen_not_seen (seen ks : list K) k :
  k ∈ first_seen seen ks → (k ∉ seen) ∧ k ∈ ks.
Proof.
  revert seen. induction ks as [|k0 ks IH]; intros seen; simpl.
  - by intros ?%elem_of_nil.
  - destruct (decide (k0 ∈ seen)) as [Hin|Hin].
    + intros [Hs Hk]%IH. split; [done|]. by apply list_elem_of_further.
    + intros [->|[Hs Hk]%IH]%elem_of_cons.
      * split; [done|]. by apply list_elem_of_here.
      * split; [|by apply list_elem_of_further].
        intros Hs'. apply Hs. by apply list_elem_of_further.
Qed.

Lemma first_seen_NoDup (seen ks : list K) : NoDup (first_seen seen ks).
Proof.
  revert seen. induction ks as [|k ks IH]; intros seen; simpl.
  - constructor.
  - destruct (decide (k ∈ seen)); [by apply IH|].
    constructor; [|by apply IH].
    intros [Hs _]%first_seen_not_seen. apply Hs. by apply list_elem_of_here.
Qed.

Lemma first_seen_complete (seen ks : list K) k :
  k ∈ ks → k ∉ seen → k ∈ first_seen seen ks.
Proof.
  revert seen. induction ks as [|k0 ks IH]; intros seen; simpl.
  - by intros ?%elem_of_nil.
  - intros [->|Hk]%elem_of_cons Hs.
    + rewrite decide_False by done. by apply list_elem_of_here.
    + destruct (decide (k0 ∈ seen)); [by apply IH|].
      destruct (decide (k = k0)) as [->|Hne]; [by apply list_elem_of_here|].
      apply list_elem_of_further. apply IH; [done|].
      intros [->|?]%elem_of_cons; done.
Qed.

Lemma first_seen_snoc (seen ks : list K) k :
  first_seen seen (ks ++ [k]) =
    first_seen seen ks ++ (if decide (k ∈ seen ++ ks) then [] else [k]).
Proof.
  revert seen. induction ks as [|k0 ks IH]; intros seen; simpl.
  - by rewrite app_nil_r.
  - destruct (decide (k0 ∈ seen)) as [Hin|Hin]; rewrite IH; simpl.
    + f_equal. case_decide as Ha; case_decide as Hb; try done; exfalso;
        repeat (rewrite elem_of_app in Ha || rewrite elem_of_cons in Ha);
        repeat (rewrite elem_of_app in Hb || rewrite elem_of_cons in Hb);
        intuition (subst; auto).
    + do 2 f_equal. case_decide as Ha; case_decide as Hb; try done; exfalso;
        repeat (rewrite elem_of_app in Ha || rewrite elem_of_cons in Ha);
        repeat (rewrite elem_of_app in Hb || rewrite elem_of_cons in Hb);
        intuition (subst; auto).
Qed.

(** [introduction_order] is the order of first occurrence: a repeated key
    changes nothing, a new key goes last. *)
Lemma introduction_order_snoc (ks : list K) k :
  introduction_order (ks ++ [k]) =
    if decide (k ∈ ks) then introduction_order ks
    else introduction_order ks ++ [k].
Proof.
  unfold introduction_order. rewrite first_seen_snoc. simpl.
  destruct (decide (k ∈ ks)); [by rewrite app_nil_r|done].
Qed.

Lemma introduction_order_elem_of (ks : list K) k :
  k ∈ introduction_order ks ↔ k ∈ ks.
Proof.
  split.
  - by intros [_ Hk]%first_seen_not_seen.
  - intros Hk. apply first_seen_complete; [done|]. by intros ?%elem_of_nil.
Qed.

Lemma inv_not_in_keys s ents k :
  Inv s ents → k ∉ ek <$> ents → data s !! k = None.
Proof.
  intros HI Hk. destruct (data s !! k) as [x|] eqn:Hx; [|done].
  destruct Hk. by apply (inv_dom _ _ HI k x).
Qed.

Lemma run_sets_inv kvs s ents :
  Inv s ents →
  ∃ s' ents', run (sets kvs) s = Some s' ∧ Inv s' ents'
    ∧ ek <$> ents' = (ek <$> ents) ++ first_seen (ek <$> ents) (kvs.*1)
    ∧ length ents' ≤ length ents + length kvs.
Proof.
  revert s ents. induction kvs as [|[k v] kvs IH]; intros s ents HI; simpl.
  - exists s, ents. split_and!; [done..|by rewrite app_nil_r|lia].
  - destruct (decide (k ∈ ek <$> ents)) as [Hin|Hnin].
    + apply list_elem_of_fmap_1 in Hin as (e & -> & He).
      destruct (list_elem_of_lookup_1 _ _ He) as [i Hi].
      destruct (Set_present_inv s ents i e v HI Hi) as (s1 & -> & HI1 & _).
      destruct (IH s1 _ HI1) as (s' & ents' & Hrun & HI' & Hks & Hlen).
      assert (Hek : ek <$> <[i := Entry (en e) (ep e) (ek e) v]> ents = ek <$> ents).
      { rewrite list_fmap_insert. apply list_insert_id.
        by rewrite list_lookup_fmap, Hi. }
      rewrite Hek in Hks. rewrite length_insert in Hlen.
      exists s', ents'. split_and!; [done..|lia].
    + pose proof (inv_not_in_keys s ents k HI Hnin) as Hk.
      destruct (Set_fresh_inv s ents k v HI Hk) as (s1 & -> & HI1 & _).
      destruct (IH s1 _ HI1) as (s' & ents' & Hrun & HI' & Hks & Hlen).
      rewrite fmap_app in Hks. simpl in Hks. rewrite length_app in Hlen.
      simpl in Hlen.
      exists s', ents'. split_and!; [done..| |lia].
      rewrite Hks, <- app_assoc. simpl. do 2 f_equal.
      apply first_seen_ext. intros k'.
      rewrite elem_of_app, !elem_of_cons, elem_of_nil. tauto.
Qed.

Lemma inv_Len s ents : Inv s ents → Len s = Z.of_nat (length ents).
Proof. intros HI. unfold Len. by rewrite (inv_size s ents HI). Qed.

Lemma filter_all {A} (P : A → Prop) `{∀ x, Decision (P x)} (l : list A) :
  (∀ x, x ∈ l → P x) → filter P l = l.
Proof.
  induction l as [|y l IH]; intros Hall; [done|].
  rewrite filter_cons_True by (apply Hall, list_elem_of_here).
  f_equal. apply IH. intros x Hx. by apply Hall, list_elem_of_further.
Qed.

Lemma delete_as_filter {A B} `{EqDecision B} (f : A → B) (l : list A) i x :
  NoDup (f <$> l) → l !! i = Some x →
  delete i l = filter (λ y, f y ≠ f x) l.
Proof.
  revert i. induction l as [|y l IH]; intros i Hnd Hi; [done|].
  rewrite fmap_cons in Hnd. apply NoDup_cons in Hnd as [Hy Hnd].
  destruct i as [|i]; simpl in *.
  - injection Hi as ->. rewrite filter_cons_False by (intros Hne; by apply Hne).
    symmetry. apply filter_all.
    intros z Hz Heq. apply Hy. rewrite <- Heq. by apply list_elem_of_fmap_2.
  - rewrite filter_cons_True.
    + f_equal. by apply IH.
    + intros Heq. apply Hy. rewrite Heq. apply list_elem_of_fmap_2.
      by eapply list_elem_of_lookup_2.
Qed.

Lemma inv_Get s ents key v s' :
  Inv s ents → Get key s = Some ((v, true), s') →
  ∃ i e, ents !! i = Some e ∧ ek e = key ∧ ev e = v.
Proof.
  intros HI HG. destruct (data s !! key) as [x|] eqn:Hk.
  - destruct (inv_present _ _ _ _ HI Hk) as (i & e & Hi & <- & ->).
    pose proof (list_elem_of_lookup_2 _ _ _ Hi) as He.
    rewrite (Get_present_eq s (ek e) (ep e) _ Hk (inv_elem _ _ HI e He)) in HG.
    exists i, e. split_and!; [done..|]. simpl in HG. congruence.
  - rewrite (Get_absent_eq s key Hk) in HG. congruence.
Qed.

(** ** The properties of the specification *)

(** C2. Apply any sequence of [Set] calls to a fresh empty map.  The calls
    never panic, and iterating the resulting map (with any bound on the
    number of [next] calls that exceeds the number of [Set] calls) visits
    the keys exactly in the order in which each key first occurs in the
    sequence, whatever values were written and however often a key was
    overwritten. *)
Theorem Set_sequence_iterates_in_introduction_order (kvs : list (K * V)) :
  ∃ s, run (sets kvs) New = Some s
       ∧ ∀ fuel, length kvs < fuel →
           ∃ visited, iterate fuel s = Some visited
                      ∧ visited.*1 = introduction_order (kvs.*1).
Proof.
  destruct (run_sets_inv kvs New [] New_inv) as (s & ents & Hrun & HI & Hks & Hlen).
  exists s. split; [done|]. intros fuel Hfuel.
  exists (pairs ents). split.
  - apply inv_iterate; [done|]. simpl in Hlen. lia.
  - unfold pairs. rewrite <- list_fmap_compose. exact Hks.
Qed.

(** C3. In every store reached from [New] by [Set] and [Delete] calls
    (which never panic), let [ns] be the nodes of the order list, met by
    following [next] from [head].  No node occurs twice, there are as many
    nodes as index entries, every key of the index has exactly one node of
    [ns] holding it, which is the node its entry refers to, and every node
    of [ns] holds a key of the index and is referred to by the entry of
    that key and of no other key. *)
Theorem index_and_order_correspond (ops : list op) :
  ∃ s ns, run ops New = Some s
    ∧ forward (length ns) s = Some ns
    ∧ NoDup ns
    ∧ length ns = size (data s)
    ∧ (∀ key, is_Some (data s !! key) →
         ∃ l, l ∈ ns ∧ key_at s l = Some key ∧ position_ref s key = Some l
              ∧ ∀ l', l' ∈ ns → key_at s l' = Some key → l' = l)
    ∧ (∀ l, l ∈ ns →
         ∃ key, key_at s l = Some key ∧ is_Some (data s !! key)
                ∧ position_ref s key = Some l
                ∧ ∀ key', position_ref s key' = Some l → key' = key).
Proof.
  destruct (run_inv ops New [] New_inv) as (s & ents & Hrun & HI & _).
  exists s, (en <$> ents).
  assert (Hkey : ∀ i e, ents !! i = Some e → key_at s (en e) = Some (ek e)).
  { intros i e Hi. unfold key_at. by rewrite (inv_node _ _ HI i e Hi). }
  assert (Hpos : ∀ e, e ∈ ents → position_ref s (ek e) = Some (en e)).
  { intros e He. unfold position_ref.
    by rewrite (inv_data _ _ HI e He), (inv_elem _ _ HI e He). }
  split_and!.
  - done.
  - rewrite length_fmap. by apply inv_forward.
  - apply (inv_nodup _ _ HI).
  - by rewrite length_fmap, (inv_size s ents HI).
  - intros key [x Hx].
    destruct (inv_present _ _ _ _ HI Hx) as (i & e & Hi & <- & ->).
    pose proof (list_elem_of_lookup_2 _ _ _ Hi) as He.
    exists (en e). split_and!.
    + by apply list_elem_of_fmap_2.
    + by apply (Hkey i).
    + by apply Hpos.
    + intros l' (e' & -> & He')%list_elem_of_fmap_1 Hk'.
      destruct (list_elem_of_lookup_1 _ _ He') as [j Hj].
      rewrite (Hkey j e' Hj) in Hk'. injection Hk' as Hk'.
      pose proof (inv_ek_inj s ents j i e' e HI Hj Hi Hk') as ->.
      congruence.
  - intros l (e & -> & He)%list_elem_of_fmap_1.
    destruct (list_elem_of_lookup_1 _ _ He) as [i Hi].
    exists (ek e). split_and!.
    + by apply (Hkey i).
    + rewrite (inv_data _ _ HI e He). by eauto.
    + by apply Hpos.
    + intros key' Hp'.
      destruct (data s !! key') as [x|] eqn:Hx.
      2: { unfold position_ref in Hp'. by rewrite Hx in Hp'. }
      destruct (inv_present _ _ _ _ HI Hx) as (j & e' & Hj & <- & ->).
      rewrite (Hpos e' (list_elem_of_lookup_2 _ _ _ Hj)) in Hp'.
      injection Hp' as Hp'.
      pose proof (inv_en_inj s ents j i e' e HI Hj Hi Hp') as ->.
      congruence.
Qed.

(** C4. In a store reached from [New], if [Get key] finds [key] with
    value [v], then [Delete key] returns [(v, true)], [Len] drops by
    exactly one, a following [Get key] returns [(zero, false)], and an
    iterator created afterwards visits what one created before would have
    visited, without the pair of [key]. *)
Theorem Delete_present_key (ops : list op) (s : State) (key : K) (v : V) :
  run ops New = Some s →
  Get key s = Some ((v, true), s) →
  ∃ s', Delete key s = Some ((v, true), s')
    ∧ Len s' = (Len s - 1)%Z
    ∧ Get key s' = Some ((zero, false), s')
    ∧ ∀ fuel, (Len s < Z.of_nat fuel)%Z →
        ∃ before, iterate fuel s = Some before
          ∧ iterate fuel s' = Some (filter (λ kv, kv.1 ≠ key) before)
          ∧ key ∉ (filter (λ kv, kv.1 ≠ key) before).*1.
Proof.
  intros Hrun HG.
  destruct (reachable_inv ops s Hrun) as (ents & HI & _).
  destruct (inv_Get s ents key v s HI HG) as (i & e & Hi & <- & <-).
  destruct (Delete_present_inv s ents i e HI Hi) as (s' & HD & HI' & Hdata).
  pose proof (lookup_lt_Some _ _ _ Hi) as Hlt.
  exists s'. split_and!.
  - done.
  - rewrite (inv_Len s ents HI), (inv_Len s' _ HI').
    rewrite length_delete by eauto. lia.
  - apply Get_absent_eq. rewrite Hdata. apply lookup_delete_eq.
  - intros fuel Hfuel. rewrite (inv_Len s ents HI) in Hfuel.
    exists (pairs ents). split_and!.
    + apply inv_iterate; [done|lia].
    + rewrite (inv_iterate s' _ fuel HI').
      2: { rewrite length_delete by eauto. lia. }
      f_equal. unfold pairs. rewrite list_fmap_delete.
      apply (delete_as_filter fst _ i (ek e, ev e)).
      * rewrite <- list_fmap_compose. apply (inv_keys_NoDup s ents HI).
      * by rewrite list_lookup_fmap, Hi.
    + intros ((k & v') & Hk & Hin)%list_elem_of_fmap_1.
      apply list_elem_of_filter in Hin as [Hne _]. simpl in *. by subst.
Qed.

(** C5. In any store, if the index has no entry for [key], then
    [Get key] and [Delete key] both return [(zero, false)] and leave the
    store as it is, hence [Len] too; and whatever store a [Delete key]
    leaves behind, a second [Delete key] on it returns [(zero, false)]
    and changes nothing. *)
Theorem absent_key_Get_Delete :
  (∀ (s : State) (key : K),
     data s !! key = None →
     Get key s = Some ((zero, false), s)
     ∧ Delete key s = Some ((zero, false), s))
  ∧ (∀ (s : State) (key : K) r s',
       Delete key s = Some (r, s') →
       Delete key s' = Some ((zero, false), s')
       ∧ Get key s' = Some ((zero, false), s')).
Proof.
  split.
  - intros s key Hk. split; [by apply Get_absent_eq|by apply Delete_absent_eq].
  - intros s key r s' HD. pose proof (Delete_then_absent s key r s' HD) as Hk.
    split; [by apply Delete_absent_eq|by apply Get_absent_eq].
Qed.

(** C6. In a store reached from [New], if the index has no entry for
    [key], then [Set key value] returns [(zero, false)] and [Len] grows by
    exactly one. *)
Theorem Set_fresh_key (ops : list op) (s : State) (key : K) (value : V) :
  run ops New = Some s →
  data s !! key = None →
  ∃ s', Set_ key value s = Some ((zero, false), s')
        ∧ Len s' = (Len s + 1)%Z.
Proof.
  intros Hrun Hk.
  destruct (reachable_inv ops s Hrun) as (ents & HI & _).
  destruct (Set_fresh_inv s ents key value HI Hk) as (s' & HS & HI' & _).
  exists s'. split; [done|].
  rewrite (inv_Len s ents HI), (inv_Len s' _ HI'), length_app. simpl. lia.
Qed.

(** C7. In every store reached from [New] by [Set] and [Delete] calls,
    following [next] from [head] and following [prev] from [tail] both end,
    the second sequence of nodes is the reverse of the first, and the
    node at [head] has a nil [prev] and the node at [tail] a nil [next]. *)
Theorem list_chains_mirror (ops : list op) :
  ∃ s ns, run ops New = Some s
    ∧ forward (length ns) s = Some ns
    ∧ backward (length ns) s = Some (reverse ns)
    ∧ (∀ h, list_head (items s) = Some h →
         node_prev <$> nodes s !! h = Some None)
    ∧ (∀ t, list_tail (items s) = Some t →
         node_next <$> nodes s !! t = Some None).
Proof.
  destruct (run_inv ops New [] New_inv) as (s & ents & Hrun & HI & _).
  exists s, (en <$> ents). rewrite length_fmap. split_and!.
  - done.
  - by apply inv_forward.
  - by apply inv_backward.
  - intros h Hh. rewrite (inv_head _ _ HI) in Hh.
    apply lookup_en_inv in Hh as (e & He & <-).
    by rewrite (inv_node _ _ HI 0 e He).
  - intros t Ht. rewrite (inv_tail _ _ HI), last_lookup in Ht.
    apply lookup_en_inv in Ht as (e & He & <-).
    rewrite (inv_node _ _ HI _ e He). simpl. f_equal.
    unfold next_at. apply lookup_ge_None_2.
    pose proof (lookup_lt_Some _ _ _ He). rewrite length_fmap in *. lia.
Qed.

(** C8. On a freshly constructed map the first call of the function
    returned by [Iterator] returns [(zero, zero, false)], so does every
    later call, and the iteration loop visits no pair. *)
Theorem empty_map_iterator_is_exhausted :
  ∃ curr, Iterator New = Some (curr, New)
    ∧ next curr New = Some ((zero, zero, false), curr, New)
    ∧ (∀ n, calls n curr New = Some (replicate n (zero, zero, false), curr))
    ∧ (∀ fuel, iterate (S fuel) New = Some []).
Proof.
  exists None. split_and!; [done|done| |done].
  intros n. apply calls_exhausted.
Qed.

(** C9. In a store reached from [New], [Set] on a key that has no index
    entry, in particular a key that was deleted before, puts the key
    last: an iterator created afterwards visits what one created before
    would have visited, followed by the new pair. *)
Theorem Set_absent_key_appends (ops : list op) (s : State) (key : K) (value : V) :
  run ops New = Some s →
  data s !! key = None →
  ∃ s', Set_ key value s = Some ((zero, false), s')
    ∧ ∀ fuel, (Len s + 1 < Z.of_nat fuel)%Z →
        ∃ before, iterate fuel s = Some before
          ∧ iterate fuel s' = Some (before ++ [(key, value)])
          ∧ last (before ++ [(key, value)]).*1 = Some key.
Proof.
  intros Hrun Hk.
  destruct (reachable_inv ops s Hrun) as (ents & HI & _).
  destruct (Set_fresh_inv s ents key value HI Hk) as (s' & HS & HI' & _).
  exists s'. split; [done|]. intros fuel Hfuel.
  rewrite (inv_Len s ents HI) in Hfuel.
  exists (pairs ents). split_and!.
  - apply inv_iterate; [done|lia].
  - rewrite (inv_iterate s' _ fuel HI').
    + unfold pairs. by rewrite fmap_app.
    + rewrite length_app. simpl. lia.
  - rewrite fmap_app. simpl. by rewrite last_snoc.
Qed.

(** C10. Whatever the store and the iterator, once a call of [next]
    returns the flag [false] it has returned [(zero, zero, false)] and left
    the store alone, and any number of further calls on the same store
    return [(zero, zero, false)] again, without a panic. *)
Theorem exhausted_iterator_stays_exhausted
    (s s' : State) (curr curr' : ptr) (key : K) (val : V) :
  next curr s = Some ((key, val, false), curr', s') →
  key = zero ∧ val = zero ∧ s' = s
  ∧ ∀ n, calls n curr' s = Some (replicate n (zero, zero, false), curr').
Proof.
  intros (-> & -> & -> & -> & ->)%next_false.
  split_and!; [done..|]. intros n. apply calls_exhausted.
Qed.

(** ** Further properties of the methods *)

(** *** Auxiliary facts *)

Lemma inv_Get_lookup s ents i e :
  Inv s ents → ents !! i = Some e → Get (ek e) s = Some ((ev e, true), s).
Proof.
  intros HI Hi. pose proof (list_elem_of_lookup_2 _ _ _ Hi) as He.
  by rewrite (Get_present_eq s (ek e) (ep e) _
                (inv_data _ _ HI e He) (inv_elem _ _ HI e He)).
Qed.

Lemma inv_Get_in s ents key v :
  Inv s ents → (key, v) ∈ pairs ents → Get key s = Some ((v, true), s).
Proof.
  intros HI (e & [= -> ->] & He)%list_elem_of_fmap_1.
  destruct (list_elem_of_lookup_1 _ _ He) as [i Hi].
  by apply (inv_Get_lookup s ents i).
Qed.

Lemma inv_Get_notin s ents key :
  Inv s ents → key ∉ ek <$> ents → Get key s = Some ((zero, false), s).
Proof.
  intros HI Hk. apply Get_absent_eq. by apply (inv_not_in_keys s ents).
Qed.

Lemma pairs_keys (ents : list entry) : (pairs ents).*1 = ek <$> ents.
Proof. unfold pairs. by rewrite <- list_fmap_compose. Qed.

Lemma inv_Get_cases s ents key :
  Inv s ents →
  (∃ v, (key, v) ∈ pairs ents ∧ Get key s = Some ((v, true), s))
  ∨ ((key ∉ ek <$> ents) ∧ Get key s = Some ((zero, false), s)).
Proof.
  intros HI. destruct (decide (key ∈ ek <$> ents)) as [Hin|Hnin].
  - left. apply list_elem_of_fmap_1 in Hin as (e & -> & He).
    exists (ev e). assert ((ek e, ev e) ∈ pairs ents) as Hp.
    { unfold pairs. by apply (list_elem_of_fmap_2 (λ e, (ek e, ev e))). }
    split; [done|]. by apply (inv_Get_in s ents).
  - right. split; [done|]. by apply (inv_Get_notin s ents).
Qed.

(** The entries before and after a command agree away from its key. *)
Lemma exec_effect o s ents :
  Inv s ents →
  ∃ r s' ents', exec o s = Some (r, s') ∧ Inv s' ents'
    ∧ ∀ k v, k ≠ op_key o → ((k, v) ∈ pairs ents' ↔ (k, v) ∈ pairs ents).
Proof.
  intros HI. destruct o as [key value|key]; simpl.
  - destruct (data s !! key) as [x|] eqn:Hk.
    + destruct (inv_present _ _ _ _ HI Hk) as (i & e & Hi & <- & _).
      destruct (Set_present_inv s ents i e value HI Hi) as (s' & Hs & HI' & _).
      eexists _, s', _. split_and!; [done..|]. intros k v Hne.
      unfold pairs. rewrite !list_elem_of_fmap. split.
      * intros (e' & [= -> ->] & [j Hj]%list_elem_of_lookup_1).
        apply list_lookup_insert_Some in Hj as [(_ & <- & _)|[_ Hj]].
        { by destruct Hne. }
        exists e'. split; [done|]. by eapply list_elem_of_lookup_2.
      * intros (e' & [= -> ->] & [j Hj]%list_elem_of_lookup_1).
        exists e'. split; [done|]. apply list_elem_of_lookup. exists j.
        rewrite list_lookup_insert_ne; [done|].
        intros ->. rewrite Hi in Hj. by injection Hj as ->.
    + destruct (Set_fresh_inv s ents key value HI Hk) as (s' & Hs & HI' & _).
      eexists _, s', _. split_and!; [done..|]. intros k v Hne.
      unfold pairs. rewrite fmap_app, elem_of_app. simpl.
      rewrite list_elem_of_singleton. split; [|by left].
      intros [?|[= -> _]]; done.
  - destruct (data s !! key) as [x|] eqn:Hk.
    + destruct (inv_present _ _ _ _ HI Hk) as (i & e & Hi & <- & _).
      destruct (Delete_present_inv s ents i e HI Hi) as (s' & Hs & HI' & _).
      eexists _, s', _. split_and!; [done..|]. intros k v Hne.
      unfold pairs. rewrite !list_elem_of_fmap. split.
      * intros (e' & [= -> ->] & He'%list_elem_of_delete_inv). by exists e'.
      * intros (e' & [= -> ->] & [j Hj]%list_elem_of_lookup_1).
        exists e'. split; [done|]. apply elem_of_delete_lookup.
        exists j. split; [|done]. intros ->. rewrite Hi in Hj.
        by injection Hj as ->.
    + eexists _, s, ents. split_and!; [by apply Delete_absent_eq|done..].
Qed.

Lemma inv_calls_cursor s ents :
  Inv s ents →
  ∀ n i, ∃ rs, calls n ((en <$> ents) !! i) s
                 = Some (rs, (en <$> ents) !! (i + n)).
Proof.
  intros HI. induction n as [|n IH]; intros i.
  - exists []. simpl. by rewrite Nat.add_0_r.
  - simpl. rewrite list_lookup_fmap.
    destruct (ents !! i) as [e|] eqn:Hi; simpl.
    + rewrite (inv_next s ents i e HI Hi). unfold next_at.
      destruct (IH (S i)) as [rs Hrs]. rewrite Hrs.
      eexists. by rewrite Nat.add_succ_r.
    + rewrite calls_exhausted. eexists. f_equal. f_equal.
      symmetry. apply lookup_ge_None_2. rewrite length_fmap.
      apply lookup_ge_None_1 in Hi. lia.
Qed.

Lemma inv_cursor s ents c0 s0 n rs c :
  Inv s ents → Iterator s = Some (c0, s0) → calls n c0 s0 = Some (rs, c) →
  s0 = s ∧ c = (en <$> ents) !! n.
Proof.
  intros HI Hit Hcalls. unfold Iterator, get_head in Hit.
  injection Hit as <- <-. split; [done|].
  rewrite (inv_head _ _ HI) in Hcalls.
  destruct (inv_calls_cursor s ents HI n 0) as [rs' Hrs'].
  rewrite Hrs' in Hcalls. simpl in Hcalls. congruence.
Qed.

Lemma fmap_fixed {A} (f : A → A) (l : list A) :
  (∀ z, z ∈ l → f z = z) → f <$> l = l.
Proof.
  induction l as [|z l IH]; intros Hf; [done|]. rewrite fmap_cons.
  rewrite (Hf z) by apply list_elem_of_here. f_equal. apply IH.
  intros w Hw. by apply Hf, list_elem_of_further.
Qed.

Lemma insert_as_fmap {A B} `{EqDecision B} (g : A → B) (l : list A) i x y :
  NoDup (g <$> l) → l !! i = Some x → g y = g x →
  <[i := y]> l = (λ z, if decide (g z = g x) then y else z) <$> l.
Proof.
  revert i. induction l as [|z l IH]; intros i Hnd Hi Hg; [done|].
  rewrite fmap_cons in Hnd. apply NoDup_cons in Hnd as [Hz Hnd].
  destruct i as [|i]; simpl in *.
  - injection Hi as ->. rewrite decide_True by done. f_equal.
    symmetry. apply fmap_fixed. intros w Hw. rewrite decide_False; [done|].
    intros Heq. apply Hz. rewrite <- Heq. by apply list_elem_of_fmap_2.
  - rewrite decide_False.
    + f_equal. by apply IH.
    + intros Heq. apply Hz. rewrite Heq. apply list_elem_of_fmap_2.
      by eapply list_elem_of_lookup_2.
Qed.


Lemma fresh_entry_lookup (ents : list entry) e0 :
  (ents ++ [e0]) !! length ents = Some e0.
Proof. by apply list_lookup_middle. Qed.

(** *** Insert and look up *)

(** X1. In a store reached from [New], [Set key value] does not panic,
    whether or not [key] was present, and a [Get key] that follows finds
    [value]. *)
Theorem Set_then_Get (ops : list op) (s : State) (key : K) (value : V) :
  run ops New = Some s →
  ∃ r s', Set_ key value s = Some (r, s')
          ∧ Get key s' = Some ((value, true), s').
Proof.
  intros Hrun. destruct (reachable_inv ops s Hrun) as (ents & HI & _).
  destruct (data s !! key) as [x|] eqn:Hk.
  - destruct (inv_present _ _ _ _ HI Hk) as (i & e & Hi & <- & _).
    destruct (Set_present_inv s ents i e value HI Hi) as (s' & Hs & HI' & _).
    exists (value, true), s'. split; [done|].
    apply (inv_Get_lookup s' _ i (Entry (en e) (ep e) (ek e) value) HI').
    apply list_lookup_insert_eq. by eapply lookup_lt_Some.
  - destruct (Set_fresh_inv s ents key value HI Hk) as (s' & Hs & HI' & _).
    exists (zero, false), s'. split; [done|].
    apply (inv_Get_lookup s' _ (length ents)
             (Entry (next_node s) (next_elem s) key value) HI').
    apply fresh_entry_lookup.
Qed.

(** X2. In a store reached from [New], a [Set] or a [Delete] on one key
    does not change what [Get] returns for any other key. *)
Theorem command_leaves_other_keys (ops : list op) (s : State) (o : op) (key : K) :
  run ops New = Some s →
  op_key o ≠ key →
  ∃ r r' s', Get key s = Some (r, s)
             ∧ exec o s = Some (r', s')
             ∧ Get key s' = Some (r, s').
Proof.
  intros Hrun Hne. destruct (reachable_inv ops s Hrun) as (ents & HI & _).
  destruct (exec_effect o s ents HI) as (r' & s' & ents' & Hex & HI' & Hsame).
  destruct (inv_Get_cases s ents key HI) as [(v & Hin & HG)|[Hnin HG]].
  - exists (v, true), r', s'. split_and!; [done..|].
    apply (inv_Get_in s' ents'); [done|]. by apply Hsame.
  - exists (zero, false), r', s'. split_and!; [done..|].
    apply (inv_Get_notin s' ents'); [done|].
    intros (e' & -> & He')%list_elem_of_fmap_1. apply Hnin.
    assert ((ek e', ev e') ∈ pairs ents) as Hp.
    { apply Hsame; [done|]. unfold pairs.
      by apply (list_elem_of_fmap_2 (λ e, (ek e, ev e))). }
    rewrite <- pairs_keys. by apply (list_elem_of_fmap_2 fst) in Hp.
Qed.

(** X3. In a store reached from [New], [Set] on a key that [Get] finds
    returns the flag [true] together with the value it has just written,
    leaves the index, the nodes, the list and [Len] as they were, and an
    iterator created afterwards visits the same keys in the same order,
    with the new value at [key] and the old values elsewhere. *)
Theorem Set_present_key_keeps_position
    (ops : list op) (s : State) (key : K) (v value : V) :
  run ops New = Some s →
  Get key s = Some ((v, true), s) →
  ∃ s', Set_ key value s = Some ((value, true), s')
    ∧ data s' = data s ∧ nodes s' = nodes s ∧ items s' = items s
    ∧ Len s' = Len s
    ∧ ∀ fuel, (Len s < Z.of_nat fuel)%Z →
        ∃ before, iterate fuel s = Some before
          ∧ iterate fuel s' = Some (overwrite key value <$> before).
Proof.
  intros Hrun HG. destruct (reachable_inv ops s Hrun) as (ents & HI & _).
  destruct (inv_Get s ents key v s HI HG) as (i & e & Hi & <- & <-).
  destruct (Set_present_inv s ents i e value HI Hi)
    as (s' & Hs & HI' & Hn & Hd & Hit).
  exists s'. split_and!; [done..| |].
  - unfold Len. by rewrite Hd.
  - intros fuel Hfuel. rewrite (inv_Len s ents HI) in Hfuel.
    exists (pairs ents). split.
    + apply inv_iterate; [done|lia].
    + rewrite (inv_iterate s' _ fuel HI') by (rewrite length_insert; lia).
      f_equal. unfold pairs. rewrite list_fmap_insert. simpl.
      apply (insert_as_fmap fst _ i (ek e, ev e) (ek e, value)).
      * rewrite <- list_fmap_compose. apply (inv_keys_NoDup s ents HI).
      * by rewrite list_lookup_fmap, Hi.
      * done.
Qed.

(** X4. In a store reached from [New], the iteration loop ends without a
    panic, visits [Len] pairs, visits no key twice, and visits the pair
    [(k, v)] exactly when [Get k] returns [(v, true)]. *)
Theorem iterate_agrees_with_Get (ops : list op) (s : State) (fuel : nat) :
  run ops New = Some s →
  (Len s < Z.of_nat fuel)%Z →
  ∃ visited, iterate fuel s = Some visited
    ∧ Z.of_nat (length visited) = Len s
    ∧ NoDup visited.*1
    ∧ ∀ k v, (k, v) ∈ visited ↔ Get k s = Some ((v, true), s).
Proof.
  intros Hrun Hfuel. destruct (reachable_inv ops s Hrun) as (ents & HI & _).
  rewrite (inv_Len s ents HI) in *.
  exists (pairs ents). split_and!.
  - apply inv_iterate; [done|lia].
  - unfold pairs. by rewrite length_fmap.
  - rewrite pairs_keys. apply (inv_keys_NoDup s ents HI).
  - intros k v. split.
    + by apply inv_Get_in.
    + intros HG. destruct (inv_Get s ents k v s HI HG) as (i & e & Hi & <- & <-).
      unfold pairs. apply (list_elem_of_fmap_2 (λ e, (ek e, ev e))).
      by eapply list_elem_of_lookup_2.
Qed.

(** X5. In a store reached from [New], the map is empty exactly when
    [head] is nil, and [head] is nil exactly when [tail] is. *)
Theorem empty_iff_nil_head (ops : list op) (s : State) :
  run ops New = Some s →
  (Len s = 0%Z ↔ list_head (items s) = None)
  ∧ (list_head (items s) = None ↔ list_tail (items s) = None).
Proof.
  intros Hrun. destruct (reachable_inv ops s Hrun) as (ents & HI & _).
  split; [|by apply (inv_empty_head s ents)].
  rewrite (inv_Len s ents HI), (inv_head _ _ HI).
  destruct ents; simpl; split; (done || lia).
Qed.

(** X6. In a store reached from [New], inserting a key that is absent and
    deleting it again returns [(value, true)] from [Delete] and restores
    what a client can observe: [Len], the absence of the key, and the
    sequence an iterator visits. *)
Theorem Set_then_Delete_restores (ops : list op) (s : State) (key : K) (value : V) :
  run ops New = Some s →
  data s !! key = None →
  ∃ s1 s2, Set_ key value s = Some ((zero, false), s1)
    ∧ Delete key s1 = Some ((value, true), s2)
    ∧ Len s2 = Len s
    ∧ Get key s2 = Some ((zero, false), s2)
    ∧ ∀ fuel, (Len s < Z.of_nat fuel)%Z →
        ∃ visited, iterate fuel s = Some visited
                   ∧ iterate fuel s2 = Some visited.
Proof.
  intros Hrun Hk. destruct (reachable_inv ops s Hrun) as (ents & HI & _).
  destruct (Set_fresh_inv s ents key value HI Hk) as (s1 & Hs & HI1 & _).
  set (e0 := Entry (next_node s) (next_elem s) key value) in *.
  destruct (Delete_present_inv s1 _ (length ents) e0 HI1
              (fresh_entry_lookup ents e0)) as (s2 & Hdel & HI2 & Hd2).
  rewrite delete_middle, app_nil_r in HI2.
  exists s1, s2. split_and!; [done..| | |].
  - by rewrite (inv_Len s ents HI), (inv_Len s2 ents HI2).
  - apply Get_absent_eq. rewrite Hd2. apply lookup_delete_eq.
  - intros fuel Hfuel. rewrite (inv_Len s ents HI) in Hfuel.
    exists (pairs ents). split; apply inv_iterate; (done || lia).
Qed.

(** *** Changing the map while an iterator is in use *)

Lemma Delete_keeps_node_values s ents i e r s' :
  Inv s ents → ents !! i = Some e →
  Delete (ek e) s = Some (r, s') →
  ∀ l, node_value <$> nodes s' !! l = node_value <$> nodes s !! l.
Proof.
  intros HI Hi HD l.
  pose proof (list_elem_of_lookup_2 _ _ _ Hi) as He.
  unfold Delete in HD.
  unfold bind at 1, data_lookup at 1 in HD. rewrite (inv_data _ _ HI e He) in HD.
  rewrite (bind_eq _ _ _ _ _ (get_elem_item_eq _ _ _ (inv_elem _ _ HI e He))) in HD.
  simpl in HD. rewrite (bind_eq _ _ _ _ _ (inv_remove _ _ _ _ HI Hi)) in HD.
  unfold bind at 1, data_delete at 1, with_data in HD. simpl in HD.
  erewrite bind_eq in HD; cycle 1.
  { apply get_elem_value_eq. simpl. apply (inv_elem _ _ HI e He). }
  simpl in HD. injection HD as _ <-. simpl.
  rewrite !relink_lookup.
  repeat case_decide; destruct (nodes s !! l); done.
Qed.

(** X7. The closure reads values when it is called.  In a store reached
    from [New], take an iterator that has been advanced any number of
    times, then overwrite a present key with [Set].  Continuing the
    iteration on the new store visits the pairs it would have visited
    on the old one, with the new value at [key]. *)
Theorem iterator_sees_later_overwrite
    (ops : list op) (s : State) (c0 c : ptr) (n : nat)
    (rs : list (K * V * bool)) (key : K) (v value : V) :
  run ops New = Some s →
  Iterator s = Some (c0, s) →
  calls n c0 s = Some (rs, c) →
  Get key s = Some ((v, true), s) →
  ∃ s', Set_ key value s = Some ((value, true), s')
    ∧ ∀ fuel, (Len s < Z.of_nat fuel)%Z →
        ∃ rest, drain fuel c s = Some rest
                ∧ drain fuel c s' = Some (overwrite key value <$> rest).
Proof.
  intros Hrun Hit Hcalls HG.
  destruct (reachable_inv ops s Hrun) as (ents & HI & _).
  destruct (inv_cursor s ents c0 s n rs c HI Hit Hcalls) as [_ ->].
  destruct (inv_Get s ents key v s HI HG) as (i & e & Hi & <- & <-).
  destruct (Set_present_inv s ents i e value HI Hi) as (s' & Hs & HI' & _).
  exists s'. split; [done|]. intros fuel Hfuel.
  rewrite (inv_Len s ents HI) in Hfuel.
  set (e1 := Entry (en e) (ep e) (ek e) value) in *.
  assert (Hen : en <$> <[i := e1]> ents = en <$> ents).
  { rewrite list_fmap_insert. apply list_insert_id.
    exact (lookup_fmap_en _ _ _ Hi). }
  exists (pairs (drop n ents)). split.
  - apply inv_drain; [done|lia].
  - rewrite <- Hen.
    rewrite (inv_drain s' _ HI') by (rewrite length_insert; lia).
    f_equal. unfold pairs. rewrite !fmap_drop. f_equal.
    rewrite list_fmap_insert. simpl.
    apply (insert_as_fmap fst _ i (ek e, ev e) (ek e, value)).
    + rewrite <- list_fmap_compose. apply (inv_keys_NoDup s ents HI).
    + by rewrite list_lookup_fmap, Hi.
    + done.
Qed.

(** X8. In a store reached from [New], if the next call of an iterator's
    [next] would return the key [key], and [key] is deleted before that
    call is made, then [Delete] succeeds and the call of [next] panics: the
    node still holds [key], the index no longer does, and [next]
    dereferences the nil pointer that [om.data[key]] yields. *)
Theorem next_panics_after_Delete_of_its_key
    (ops : list op) (s : State) (c c' : ptr) (key : K) (v : V) :
  run ops New = Some s →
  next c s = Some ((key, v, true), c', s) →
  ∃ s', Delete key s = Some ((v, true), s') ∧ next c s' = None.
Proof.
  intros Hrun Hnext. destruct (reachable_inv ops s Hrun) as (ents & HI & _).
  destruct c as [l|]; [|done].
  unfold next in Hnext. simpl in Hnext.
  destruct (nodes s !! l) as [nd|] eqn:Hl.
  2: { unfold get_value, bind, load_node in Hnext. by rewrite Hl in Hnext. }
  rewrite (bind_eq _ _ _ _ _ (get_value_eq _ _ _ Hl)) in Hnext.
  unfold bind at 1, data_index at 1 in Hnext.
  destruct (data s !! node_value nd) as [x|] eqn:Hk; [|done].
  destruct (inv_present _ _ _ _ HI Hk) as (i & e & Hi & Hkey & ->).
  pose proof (list_elem_of_lookup_2 _ _ _ Hi) as He. simpl in Hnext.
  rewrite (bind_eq _ _ _ _ _ (get_elem_value_eq _ _ _ (inv_elem _ _ HI e He)))
    in Hnext.
  rewrite (bind_eq _ _ _ _ _ (get_next_eq _ _ _ Hl)) in Hnext.
  simpl in Hnext. injection Hnext as <- <- _.
  destruct (Delete_present_inv s ents i e HI Hi) as (s' & HD & _ & Hd').
  rewrite <- Hkey. exists s'. split; [done|].
  pose proof (Delete_keeps_node_values s ents i e _ s' HI Hi HD l) as Hval.
  rewrite Hl in Hval. simpl in Hval.
  destruct (nodes s' !! l) as [nd'|] eqn:Hl'; [|done].
  injection Hval as Hval.
  unfold next. simpl.
  rewrite (bind_eq _ _ _ _ _ (get_value_eq _ _ _ Hl')).
  unfold bind at 1, data_index at 1.
  rewrite Hval, <- Hkey, Hd', lookup_delete_eq. done.
Qed.




(** *** The list under [Set] and [Delete] *)

(** X11. In a store reached from [New], [Set] on an absent key pushes
    exactly one node: the chain from [head] is the old chain followed by a
    node that was not in it, that node is the new [tail], it holds [key],
    and the entry of [key] refers to it. *)
Theorem Set_fresh_key_pushes_one_node
    (ops : list op) (s : State) (key : K) (value : V) :
  run ops New = Some s →
  data s !! key = None →
  ∃ s' ns l, Set_ key value s = Some ((zero, false), s')
    ∧ forward (length ns) s = Some ns
    ∧ (l ∉ ns)
    ∧ forward (S (length ns)) s' = Some (ns ++ [l])
    ∧ list_tail (items s') = Some l
    ∧ key_at s' l = Some key
    ∧ position_ref s' key = Some l.
Proof.
  intros Hrun Hk. destruct (reachable_inv ops s Hrun) as (ents & HI & _).
  destruct (Set_fresh_inv s ents key value HI Hk) as (s' & Hs & HI' & _).
  set (e0 := Entry (next_node s) (next_elem s) key value) in *.
  assert (e0 ∈ ents ++ [e0]) as He0.
  { apply elem_of_app. right. by apply list_elem_of_singleton. }
  exists s', (en <$> ents), (next_node s). rewrite length_fmap. split_and!.
  - done.
  - by apply inv_forward.
  - intros (e & Heq & He)%list_elem_of_fmap_1.
    pose proof (inv_node_lt _ _ HI e He). lia.
  - rewrite (inv_forward s' _ (S (length ents)) HI').
    + by rewrite fmap_app.
    + rewrite length_app. simpl. lia.
  - by rewrite (inv_tail _ _ HI'), fmap_last, last_snoc.
  - unfold key_at.
    pose proof (inv_node _ _ HI' _ e0 (fresh_entry_lookup ents e0)) as Hnd.
    simpl in Hnd. by rewrite Hnd.
  - unfold position_ref.
    pose proof (inv_data _ _ HI' e0 He0) as Hd.
    pose proof (inv_elem _ _ HI' e0 He0) as Hel. simpl in Hd, Hel.
    by rewrite Hd, Hel.
Qed.

(** X12. In a store reached from [New], [Delete] on a key whose entry
    refers to the node [l] removes exactly that node: the chain from [head]
    is the old chain without [l], every other node keeps its place, and the
    entries of the other keys refer to the nodes they referred to. *)
Theorem Delete_removes_one_node
    (ops : list op) (s : State) (key : K) (l : loc) :
  run ops New = Some s →
  position_ref s key = Some l →
  ∃ r s' ns, Delete key s = Some (r, s')
    ∧ forward (length ns) s = Some ns
    ∧ l ∈ ns
    ∧ forward (length ns) s' = Some (filter (λ l', l' ≠ l) ns)
    ∧ ∀ key', key' ≠ key → position_ref s' key' = position_ref s key'.
Proof.
  intros Hrun Hpos. destruct (reachable_inv ops s Hrun) as (ents & HI & _).
  assert (Href : ∀ s0 ents0 e, Inv s0 ents0 → e ∈ ents0 →
            position_ref s0 (ek e) = Some (en e)).
  { intros s0 ents0 e HI0 He. unfold position_ref.
    by rewrite (inv_data _ _ HI0 e He), (inv_elem _ _ HI0 e He). }
  assert (Hnone : ∀ s0 ents0 k, Inv s0 ents0 → k ∉ ek <$> ents0 →
            position_ref s0 k = None).
  { intros s0 ents0 k HI0 Hk0. unfold position_ref.
    by rewrite (inv_not_in_keys s0 ents0 k HI0 Hk0). }
  destruct (data s !! key) as [x|] eqn:Hk.
  2: { unfold position_ref in Hpos. by rewrite Hk in Hpos. }
  destruct (inv_present _ _ _ _ HI Hk) as (i & e & Hi & <- & _).
  pose proof (list_elem_of_lookup_2 _ _ _ Hi) as He.
  rewrite (Href s ents e HI He) in Hpos. injection Hpos as <-.
  destruct (Delete_present_inv s ents i e HI Hi) as (s' & HD & HI' & _).
  exists (ev e, true), s', (en <$> ents). rewrite length_fmap. split_and!.
  - done.
  - by apply inv_forward.
  - by apply list_elem_of_fmap_2.
  - rewrite (inv_forward s' _ (length ents) HI').
    + f_equal. rewrite list_fmap_delete.
      apply (delete_as_filter id _ i (en e)).
      * rewrite list_fmap_id. apply (inv_nodup _ _ HI).
      * by apply lookup_fmap_en.
    + rewrite length_delete by eauto. lia.
  - intros key' Hne.
    destruct (decide (key' ∈ ek <$> ents)) as [Hin|Hnin].
    + apply list_elem_of_fmap_1 in Hin as (e' & -> & He').
      rewrite (Href s ents e' HI He'). apply (Href s' _ e' HI').
      apply list_elem_of_lookup_1 in He' as [j Hj].
      apply elem_of_delete_lookup. exists j. split; [|done].
      intros ->. rewrite Hi in Hj. by injection Hj as ->.
    + rewrite (Hnone s ents key' HI Hnin). apply (Hnone s' _ key' HI').
      intros (e' & -> & He'%list_elem_of_delete_inv)%list_elem_of_fmap_1.
      apply Hnin. by apply list_elem_of_fmap_2.
Qed.

End OrderedMap.


(** ** The repository's test and concrete instances

    Keys are strings and values are integers, as in [TestOrderedMap]. *)

Local Open Scope Z_scope.

(** The test of the repository, call by call: the eight insertions, the
    length, the look-ups of a missing key, the iteration, and the deletion
    of the first key. *)
Example TestOrderedMap_passes :
  ∃ s s',
    Get "empty" New = Some ((0, false), New)
    ∧ Delete "empty" New = Some ((0, false), New)
    ∧ run (sets [("d", 3); ("b", 8); ("c", 5); ("a", 9);
                 ("aa", 33); ("bb", 88); ("cc", 99); ("dd", 55)]) New = Some s
    ∧ Len s = 8
    ∧ Get "missing" s = Some ((0, false), s)
    ∧ Delete "missing" s = Some ((0, false), s)
    ∧ iterate 9 s = Some [("d", 3); ("b", 8); ("c", 5); ("a", 9);
                          ("aa", 33); ("bb", 88); ("cc", 99); ("dd", 55)]
    ∧ Get "d" s = Some ((3, true), s)
    ∧ Delete "d" s = Some ((3, true), s')
    ∧ Get "d" s' = Some ((0, false), s')
    ∧ Len s' = 7
    ∧ iterate 9 s' = Some [("b", 8); ("c", 5); ("a", 9);
                           ("aa", 33); ("bb", 88); ("cc", 99); ("dd", 55)].
Proof.
  eexists. eexists. split_and!; vm_compute; reflexivity.
Qed.

(** C1. [Set] on a present key does not return the value stored before
    the call.  After [Set("a", 1)] on a fresh map, [Get("a")] finds 1; the
    call [Set("a", 2)] then returns [(2, true)], the value it has just
    written, where the documentation of [Set] promises the previous value
    1.  The map itself is updated as intended. *)
Theorem Set_present_key_returns_written_value :
  ∃ s1 s2 : State,
    Set_ "a" 1 New = Some ((0, false), s1)
    ∧ Get "a" s1 = Some ((1, true), s1)
    ∧ Set_ "a" 2 s1 = Some ((2, true), s2)
    ∧ Get "a" s2 = Some ((2, true), s2)
    ∧ iterate 2 s2 = Some [("a", 2)].
Proof.
  eexists. eexists. split_and!; vm_compute; reflexivity.
Qed.

Lemma Set_sequence_iterates_in_introduction_order_witness :
  ∃ s, run (sets [("d", 3); ("b", 8); ("d", 4); ("c", 5); ("b", 9)]) New = Some s
       ∧ ∃ visited, iterate 6 s = Some visited
                    ∧ visited.*1 = ["d"; "b"; "c"].
Proof.
  destruct (Set_sequence_iterates_in_introduction_order
              [("d", 3); ("b", 8); ("d", 4); ("c", 5); ("b", 9)])
    as (s & Hrun & Hiter).
  exists s. split; [exact Hrun|]. apply Hiter. simpl. lia.
Defined.

Lemma Delete_present_key_witness :
  ∃ s, run (sets [("d", 3); ("b", 8); ("c", 5)]) New = Some s
    ∧ Get "b" s = Some ((8, true), s)
    ∧ ∃ s', Delete "b" s = Some ((8, true), s')
        ∧ Len s' = Len s - 1
        ∧ Get "b" s' = Some ((0, false), s')
        ∧ ∀ fuel, (Len s < Z.of_nat fuel) →
            ∃ before, iterate fuel s = Some before
              ∧ iterate fuel s' = Some (filter (λ kv, kv.1 ≠ "b") before)
              ∧ "b" ∉ (filter (λ kv, kv.1 ≠ "b") before).*1.
Proof.
  eexists. split; [vm_compute; reflexivity|].
  split; [vm_compute; reflexivity|].
  apply (Delete_present_key (sets [("d", 3); ("b", 8); ("c", 5)]));
    vm_compute; reflexivity.
Defined.

Lemma absent_key_Get_Delete_witness :
  (Get "empty" (New (V := Z)) = Some ((0, false), New)
   ∧ Delete "empty" (New (V := Z)) = Some ((0, false), New))
  ∧ ∃ s s', run [OpSet "a" 1; OpSet "b" 2] New = Some s
      ∧ Delete "a" s = Some ((1, true), s')
      ∧ Delete "a" s' = Some ((0, false), s')
      ∧ Get "a" s' = Some ((0, false), s').
Proof.
  destruct (absent_key_Get_Delete (K := string) (V := Z)) as [Habsent Htwice].
  split.
  - apply Habsent. vm_compute. reflexivity.
  - assert (∃ s s', run [OpSet "a" 1; OpSet "b" 2] New = Some s
                     ∧ Delete "a" s = Some ((1, true), s'))
      as (s & s' & Hrun & Hdel)
      by (eexists; eexists; split; vm_compute; reflexivity).
    exists s, s'. split; [exact Hrun|]. split; [exact Hdel|].
    exact (Htwice s "a" _ s' Hdel).
Defined.

Lemma Set_fresh_key_witness :
  ∃ s, run [OpSet "d" 3; OpSet "b" 8] New = Some s
    ∧ data s !! "c" = None
    ∧ ∃ s', Set_ "c" 5 s = Some ((0, false), s') ∧ Len s' = Len s + 1.
Proof.
  eexists. split; [vm_compute; reflexivity|].
  split; [vm_compute; reflexivity|].
  apply (Set_fresh_key [OpSet "d" 3; OpSet "b" 8]); vm_compute; reflexivity.
Defined.

Lemma Set_absent_key_appends_witness :
  ∃ s, run [OpSet "a" 1; OpSet "b" 2; OpSet "c" 3; OpDelete "a"] New = Some s
    ∧ data s !! "a" = None
    ∧ ∃ s', Set_ "a" 4 s = Some ((0, false), s')
        ∧ ∀ fuel, (Len s + 1 < Z.of_nat fuel) →
            ∃ before, iterate fuel s = Some before
              ∧ iterate fuel s' = Some (before ++ [("a", 4)])
              ∧ last (before ++ [("a", 4)]).*1 = Some "a".
Proof.
  eexists. split; [vm_compute; reflexivity|].
  split; [vm_compute; reflexivity|].
  apply (Set_absent_key_appends
           [OpSet "a" 1; OpSet "b" 2; OpSet "c" 3; OpDelete "a"]);
    vm_compute; reflexivity.
Defined.

Lemma exhausted_iterator_stays_exhausted_witness :
  ∃ s, run [OpSet "a" 1] New = Some s
    ∧ next (Some 0%nat) s = Some (("a", 1, true), None, s)
    ∧ next None s = Some (("", 0, false), None, s)
    ∧ ∀ n, calls n None s = Some (replicate n ("", 0, false), None).
Proof.
  eexists. split; [vm_compute; reflexivity|].
  split; [vm_compute; reflexivity|].
  split; [vm_compute; reflexivity|].
  eapply (exhausted_iterator_stays_exhausted _ _ None None "" 0).
  vm_compute. reflexivity.
Defined.

Lemma index_and_order_correspond_witness :
  ∃ (s : State) ns,
    run [OpSet "a" 1; OpSet "b" 2; OpDelete "a"; OpSet "c" 3; OpSet "b" 4] New
      = Some s
    ∧ forward (length ns) s = Some ns
    ∧ NoDup ns
    ∧ length ns = size (data s)
    ∧ (∀ key, is_Some (data s !! key) →
         ∃ l, l ∈ ns ∧ key_at s l = Some key ∧ position_ref s key = Some l
              ∧ ∀ l', l' ∈ ns → key_at s l' = Some key → l' = l)
    ∧ (∀ l, l ∈ ns →
         ∃ key, key_at s l = Some key ∧ is_Some (data s !! key)
                ∧ position_ref s key = Some l
                ∧ ∀ key', position_ref s key' = Some l → key' = key).
Proof.
  exact (index_and_order_correspond
           [OpSet "a" 1; OpSet "b" 2; OpDelete "a"; OpSet "c" 3; OpSet "b" 4]).
Defined.

Lemma list_chains_mirror_witness :
  ∃ (s : State) ns,
    run [OpSet "a" 1; OpSet "b" 2; OpSet "c" 3; OpDelete "b"] New = Some s
    ∧ forward (length ns) s = Some ns
    ∧ backward (length ns) s = Some (reverse ns)
    ∧ (∀ h, list_head (items s) = Some h →
         node_prev <$> nodes s !! h = Some None)
    ∧ (∀ t, list_tail (items s) = Some t →
         node_next <$> nodes s !! t = Some None).
Proof.
  exact (list_chains_mirror
           [OpSet "a" 1; OpSet "b" 2; OpSet "c" 3; OpDelete "b"]).
Defined.

(** ** Concrete instances of the further properties *)

Lemma Set_then_Get_witness :
  ∃ s : State, run [OpSet "a" 1; OpSet "b" 2] New = Some s
    ∧ ∃ r s', Set_ "a" 7 s = Some (r, s')
              ∧ Get "a" s' = Some ((7, true), s').
Proof.
  eexists. split; [vm_compute; reflexivity|].
  apply (Set_then_Get [OpSet "a" 1; OpSet "b" 2]). vm_compute. reflexivity.
Defined.

Lemma command_leaves_other_keys_witness :
  ∃ s : State, run [OpSet "a" 1; OpSet "b" 2] New = Some s
    ∧ op_key (OpDelete (V := Z) "a") ≠ "b"
    ∧ ∃ r r' s', Get "b" s = Some (r, s)
                 ∧ exec (OpDelete "a") s = Some (r', s')
                 ∧ Get "b" s' = Some (r, s').
Proof.
  eexists. split; [vm_compute; reflexivity|].
  split; [simpl; discriminate|].
  apply (command_leaves_other_keys [OpSet "a" 1; OpSet "b" 2]).
  - vm_compute. reflexivity.
  - simpl. discriminate.
Defined.

Lemma Set_present_key_keeps_position_witness :
  ∃ s : State, run [OpSet "a" 1; OpSet "b" 2; OpSet "c" 3] New = Some s
    ∧ Get "b" s = Some ((2, true), s)
    ∧ ∃ s', Set_ "b" 9 s = Some ((9, true), s')
        ∧ data s' = data s ∧ nodes s' = nodes s ∧ items s' = items s
        ∧ Len s' = Len s
        ∧ ∀ fuel, Len s < Z.of_nat fuel →
            ∃ before, iterate fuel s = Some before
              ∧ iterate fuel s' = Some (overwrite "b" 9 <$> before).
Proof.
  eexists. split; [vm_compute; reflexivity|].
  split; [vm_compute; reflexivity|].
  apply (Set_present_key_keeps_position
           [OpSet "a" 1; OpSet "b" 2; OpSet "c" 3] _ "b" 2 9);
    vm_compute; reflexivity.
Defined.

Lemma iterate_agrees_with_Get_witness :
  ∃ s : State, run [OpSet "a" 1; OpSet "b" 2; OpDelete "a"; OpSet "a" 3] New = Some s
    ∧ Len s < Z.of_nat 3
    ∧ ∃ visited, iterate 3 s = Some visited
        ∧ Z.of_nat (length visited) = Len s
        ∧ NoDup visited.*1
        ∧ ∀ k v, (k, v) ∈ visited ↔ Get k s = Some ((v, true), s).
Proof.
  eexists. split; [vm_compute; reflexivity|].
  split; [vm_compute; reflexivity|].
  apply (iterate_agrees_with_Get
           [OpSet "a" 1; OpSet "b" 2; OpDelete "a"; OpSet "a" 3]);
    vm_compute; reflexivity.
Defined.

Lemma iterator_sees_later_overwrite_witness :
  ∃ (s : State) c0 rs c,
    run [OpSet "a" 1; OpSet "b" 2; OpSet "c" 3] New = Some s
    ∧ Iterator s = Some (c0, s)
    ∧ calls 1 c0 s = Some (rs, c)
    ∧ Get "c" s = Some ((3, true), s)
    ∧ ∃ s', Set_ "c" 9 s = Some ((9, true), s')
        ∧ ∀ fuel, Len s < Z.of_nat fuel →
            ∃ rest, drain fuel c s = Some rest
                    ∧ drain fuel c s' = Some (overwrite "c" 9 <$> rest).
Proof.
  do 4 eexists. split; [vm_compute; reflexivity|].
  split; [vm_compute; reflexivity|].
  split; [vm_compute; reflexivity|].
  split; [vm_compute; reflexivity|].
  eapply (iterator_sees_later_overwrite
            [OpSet "a" 1; OpSet "b" 2; OpSet "c" 3]) with (n := 1%nat);
    vm_compute; reflexivity.
Defined.

Lemma next_panics_after_Delete_of_its_key_witness :
  ∃ s : State, run [OpSet "a" 1; OpSet "b" 2] New = Some s
    ∧ next (Some 1%nat) s = Some (("b", 2, true), None, s)
    ∧ ∃ s', Delete "b" s = Some ((2, true), s')
            ∧ next (Some 1%nat) s' = None.
Proof.
  eexists. split; [vm_compute; reflexivity|].
  split; [vm_compute; reflexivity|].
  eapply (next_panics_after_Delete_of_its_key [OpSet "a" 1; OpSet "b" 2]);
    vm_compute; reflexivity.
Defined.



Lemma empty_iff_nil_head_witness :
  ∃ s : State, run [OpSet "a" 1; OpSet "b" 2; OpDelete "a"; OpDelete "b"] New = Some s
    ∧ (Len s = 0 ↔ list_head (items s) = None)
    ∧ (list_head (items s) = None ↔ list_tail (items s) = None).
Proof.
  eexists. split; [vm_compute; reflexivity|].
  apply (empty_iff_nil_head
           [OpSet "a" 1; OpSet "b" 2; OpDelete "a"; OpDelete "b"]).
  vm_compute. reflexivity.
Defined.

Lemma Set_then_Delete_restores_witness :
  ∃ s : State, run [OpSet "a" 1; OpSet "b" 2] New = Some s
    ∧ data s !! "c" = None
    ∧ ∃ s1 s2, Set_ "c" 3 s = Some ((0, false), s1)
        ∧ Delete "c" s1 = Some ((3, true), s2)
        ∧ Len s2 = Len s
        ∧ Get "c" s2 = Some ((0, false), s2)
        ∧ ∀ fuel, Len s < Z.of_nat fuel →
            ∃ visited, iterate fuel s = Some visited
                       ∧ iterate fuel s2 = Some visited.
Proof.
  eexists. split; [vm_compute; reflexivity|].
  split; [vm_compute; reflexivity|].
  apply (Set_then_Delete_restores [OpSet "a" 1; OpSet "b" 2]);
    vm_compute; reflexivity.
Defined.

Lemma Set_fresh_key_pushes_one_node_witness :
  ∃ s : State, run [OpSet "a" 1; OpSet "b" 2] New = Some s
    ∧ data s !! "c" = None
    ∧ ∃ s' ns l, Set_ "c" 3 s = Some ((0, false), s')
        ∧ forward (length ns) s = Some ns
        ∧ (l ∉ ns)
        ∧ forward (S (length ns)) s' = Some (ns ++ [l])
        ∧ list_tail (items s') = Some l
        ∧ key_at s' l = Some "c"
        ∧ position_ref s' "c" = Some l.
Proof.
  eexists. split; [vm_compute; reflexivity|].
  split; [vm_compute; reflexivity|].
  apply (Set_fresh_key_pushes_one_node [OpSet "a" 1; OpSet "b" 2]);
    vm_compute; reflexivity.
Defined.

Lemma Delete_removes_one_node_witness :
  ∃ s : State, run [OpSet "a" 1; OpSet "b" 2; OpSet "c" 3] New = Some s
    ∧ position_ref s "b" = Some 1%nat
    ∧ ∃ r s' ns, Delete "b" s = Some (r, s')
        ∧ forward (length ns) s = Some ns
        ∧ 1%nat ∈ ns
        ∧ forward (length ns) s' = Some (filter (λ l', l' ≠ 1%nat) ns)
        ∧ ∀ key', key' ≠ "b" → position_ref s' key' = position_ref s key'.
Proof.
  eexists. split; [vm_compute; reflexivity|].
  split; [vm_compute; reflexivity|].
  apply (Delete_removes_one_node [OpSet "a" 1; OpSet "b" 2; OpSet "c" 3]);
    vm_compute; reflexivity.
Defined.
